(** * Provider router: failover, health state, local quota and ranking

    A shallow embedding of [ProviderRouter] (src/providers/provider-router.ts,
    shipped inside src/routes/analyze.routes.ts), of [AIProviderError]
    (src/providers/error.ts) and of [estimateTokens]
    (src/utils/token-estimator.ts), with the properties the design document
    states about them.

    Modelling conventions
    - Millisecond timestamps, durations and the quota cap are integers ([Z]):
      they are results of [Date.now()] and of [parseInt] on the configuration.
    - Costs are exact rationals ([Qc]); the source computes them in IEEE
      doubles, the order of finite costs is what the ranking depends on.
    - The two maps of the class are [gmap]s keyed by provider name.
    - The methods run in a state monad over the router instance, a counter of
      the interactions with the outside world, and a log of the provider calls
      made.  Each [Date.now()] and each provider call asks the environment
      for its answer at the current counter value, so successive readings of
      the clock are unrelated unless a theorem assumes otherwise. *)

From Stdlib Require Import ZArith QArith Qcanon Ascii String List Sorted Permutation Lia.
From stdpp Require Import base option numbers list sorting countable gmap strings.

Local Open Scope string_scope.
Local Open Scope Z_scope.

(** ** Data model *)

(** [ProviderName] of src/providers/error.ts. *)
Inductive ProviderName : Set := claude | openai | deepseek.

#[global] Instance ProviderName_eq_dec : EqDecision ProviderName.
Proof. solve_decision. Defined.

#[global] Instance ProviderName_countable : Countable ProviderName.
Proof.
  refine (inj_countable'
            (λ n, match n with claude => 0%nat | openai => 1%nat | deepseek => 2%nat end)
            (λ k, match k with 0%nat => claude | 1%nat => openai | _ => deepseek end) _).
  by intros [].
Defined.

(** [AIProviderError]: an [Error] with a provider, an optional status and a
    retryable flag. *)
Record AIProviderError : Set := mkAIProviderError {
  err_provider : ProviderName;
  err_message : string;
  err_status : option Z;
  err_retryable : bool
}.

(** The constructor's options object: [retryable] is optional and defaults
    to [true] ([opts.retryable ?? true]). *)
Definition new_AIProviderError (provider : ProviderName) (message : string)
    (status : option Z) (retryable : option bool) : AIProviderError :=
  {| err_provider := provider;
     err_message := message;
     err_status := status;
     err_retryable := default true retryable |}.

(** What a [catch (err)] can receive ([unknown]), by the two [instanceof] tests
    the router makes. *)
Inductive Thrown : Set :=
  | ThrownProviderError (e : AIProviderError)   (* instanceof AIProviderError *)
  | ThrownError (message : string)              (* another instanceof Error *)
  | ThrownValue (as_string : string).           (* not an Error; String(err) *)

Definition instanceof_Error (t : Thrown) : bool :=
  match t with
  | ThrownProviderError _ | ThrownError _ => true
  | ThrownValue _ => false
  end.

(** The analysis a provider resolves with; the router hands it on untouched. *)
Record AnalysisResult : Set := mkAnalysisResult {
  summary : string;
  key_insights : list string;
  next_actions : list string;
  model_version : string;
  raw_response : string
}.

Inductive Outcome : Set :=
  | Resolved (result : AnalysisResult)
  | Rejected (err : Thrown).

(** The arguments of [analyzeData]. *)
Record Request : Set := mkRequest {
  structuredData : string;
  notes : list string;
  requestId : string
}.

(** [AIProvider] objects are known by identity only. *)
Definition AIProvider : Set := nat.

Record RoutedProvider : Type := mkRoutedProvider {
  name : ProviderName;
  provider : AIProvider;
  cost_per_1k : option Qc
}.

#[global] Instance RoutedProvider_eq_dec : EqDecision RoutedProvider.
Proof. solve_decision. Defined.

Record LastError : Set := mkLastError {
  le_status : option Z;
  le_message : string;
  le_at : Z
}.

Record ProviderState : Set := mkProviderState {
  cooldown_until_ms : Z;
  consecutive_failures : Z;
  disabled_until_ms : Z;
  last_error : option LastError
}.

(** The fields of a [ProviderRouter] instance. *)
Record Router : Type := mkRouter {
  providers : list RoutedProvider;
  state : gmap ProviderName ProviderState;
  rateLimitCooldownMs : Z;
  errorCooldownMs : Z;
  authDisableMs : Z;
  paymentDisableMs : Z;
  localQuotaMax : Z;
  localQuotaWindowMs : Z;
  localQuota : gmap ProviderName (list Z)
}.

(** The six integers the field initialisers parse from the environment. *)
Record Settings : Set := mkSettings {
  AI_RL_COOLDOWN_MS : Z;
  AI_ERR_COOLDOWN_MS : Z;
  AI_AUTH_DISABLE_MS : Z;
  AI_PAYMENT_DISABLE_MS : Z;
  AI_LOCAL_QUOTA_MAX : Z;
  AI_LOCAL_QUOTA_WINDOW_MS : Z
}.

(** The values used when a variable is unset. *)
Definition default_settings : Settings :=
  {| AI_RL_COOLDOWN_MS := 60000;
     AI_ERR_COOLDOWN_MS := 15000;
     AI_AUTH_DISABLE_MS := 24 * 60 * 60 * 1000;
     AI_PAYMENT_DISABLE_MS := 24 * 60 * 60 * 1000;
     AI_LOCAL_QUOTA_MAX := 5;
     AI_LOCAL_QUOTA_WINDOW_MS := 60000 |}.

Definition with_state (st : gmap ProviderName ProviderState) (r : Router) : Router :=
  {| providers := providers r; state := st;
     rateLimitCooldownMs := rateLimitCooldownMs r;
     errorCooldownMs := errorCooldownMs r;
     authDisableMs := authDisableMs r;
     paymentDisableMs := paymentDisableMs r;
     localQuotaMax := localQuotaMax r;
     localQuotaWindowMs := localQuotaWindowMs r;
     localQuota := localQuota r |}.

Definition with_localQuota (q : gmap ProviderName (list Z)) (r : Router) : Router :=
  {| providers := providers r; state := state r;
     rateLimitCooldownMs := rateLimitCooldownMs r;
     errorCooldownMs := errorCooldownMs r;
     authDisableMs := authDisableMs r;
     paymentDisableMs := paymentDisableMs r;
     localQuotaMax := localQuotaMax r;
     localQuotaWindowMs := localQuotaWindowMs r;
     localQuota := q |}.

(** ** The constructor *)

Definition fresh_state : ProviderState :=
  {| cooldown_until_ms := 0; consecutive_failures := 0;
     disabled_until_ms := 0; last_error := None |}.

(** [providers.forEach(p => { this.state.set(..); this.localQuota.set(..) })] *)
Definition register_provider (r : Router) (p : RoutedProvider) : Router :=
  with_localQuota (<[name p := []]> (localQuota r))
    (with_state (<[name p := fresh_state]> (state r)) r).

(** [None] stands for the thrown
    [Error("ProviderRouter requires at least one provider")]. *)
Definition new_ProviderRouter (cfg : Settings) (ps : list RoutedProvider) : option Router :=
  if bool_decide (length ps = 0%nat) then None
  else Some (fold_left register_provider ps
    {| providers := ps; state := ∅;
       rateLimitCooldownMs := AI_RL_COOLDOWN_MS cfg;
       errorCooldownMs := AI_ERR_COOLDOWN_MS cfg;
       authDisableMs := AI_AUTH_DISABLE_MS cfg;
       paymentDisableMs := AI_PAYMENT_DISABLE_MS cfg;
       localQuotaMax := AI_LOCAL_QUOTA_MAX cfg;
       localQuotaWindowMs := AI_LOCAL_QUOTA_WINDOW_MS cfg;
       localQuota := ∅ |}).

(** ** Error mapping *)

(** Case folding of the [i] flag: without the [u] flag only the ASCII letters
    fold onto ASCII letters. *)
Definition fold_case (c : ascii) : ascii :=
  let n := N_of_ascii c in
  if ((65 <=? n) && (n <=? 90))%N then ascii_of_N (n + 32) else c.

Fixpoint starts_with_i (pat s : string) : bool :=
  match pat, s with
  | EmptyString, _ => true
  | String a pat', String b s' =>
      Ascii.eqb (fold_case a) (fold_case b) && starts_with_i pat' s'
  | String _ _, EmptyString => false
  end.

Fixpoint occurs_i (pat s : string) : bool :=
  starts_with_i pat s ||
  match s with
  | EmptyString => false
  | String _ s' => occurs_i pat s'
  end.

(** [/a|b|c/i.test(s)] for literal alternatives. *)
Definition regex_test_i (alternatives : list string) (s : string) : bool :=
  existsb (λ pat, occurs_i pat s) alternatives.

Definition looksLikeRateLimit (msg : string) : bool :=
  regex_test_i ["rate limit"; "429"] msg.
Definition looksLikeAuth (msg : string) : bool :=
  regex_test_i ["invalid api key"; "unauthorized"; "forbidden"; "401"; "403"] msg.
Definition looksLikePayment (msg : string) : bool :=
  regex_test_i ["payment required"; "402"; "insufficient credit"; "no credit"] msg.

(** [err instanceof Error ? err.message : String(err)], for an [err] that is
    not an [AIProviderError]. *)
Definition message_of (err : Thrown) : string :=
  match err with
  | ThrownProviderError e => err_message e
  | ThrownError m => m
  | ThrownValue s => s
  end.

Definition toProviderError (nm : ProviderName) (err : Thrown) : AIProviderError :=
  match err with
  | ThrownProviderError e => e
  | _ =>
      let msg := message_of err in
      new_AIProviderError nm msg
        (if looksLikeRateLimit msg then Some 429
         else if looksLikeAuth msg then Some 401
         else if looksLikePayment msg then Some 402
         else None)
        (Some (if looksLikeAuth msg || looksLikePayment msg then false else true))
  end.

(** ** Token estimate and ranking *)

(** [estimateTokens]: [0] for the empty string, else
    [max(1, ceil(length / 4))]. *)
Definition estimateTokens (text : string) : Z :=
  if bool_decide (text = "") then 0
  else Z.max 1 ((Z.of_nat (String.length text) + 3) / 4).

Local Open Scope Qc_scope.

(** [(tokens / 1000) * (p.cost_per_1k ?? 0)] *)
Definition estimateCostUsd (p : RoutedProvider) (tokens : Z) : Qc :=
  let per1k := default 0 (cost_per_1k p) in
  (Qc_of_Z tokens / Qc_of_Z 1000) * per1k.

(** [Array.prototype.sort(compare)] is stable, and with a consistent
    comparator its result is the one stable insertion produces: an element
    goes after everything [compare] does not put strictly after it. *)
Section ArraySort.
Context {A : Type} (compare : A → A → Qc).

Fixpoint sort_insert (x : A) (l : list A) : list A :=
  match l with
  | [] => [x]
  | y :: l' =>
      if bool_decide (0 < compare x y) then y :: sort_insert x l'
      else x :: y :: l'
  end.

Definition array_sort (l : list A) : list A := foldr sort_insert [] l.
End ArraySort.

(** The comparator [(a, b) => key(a) - key(b)]. *)
Definition by_key {A : Type} (key : A → Qc) (a b : A) : Qc := key a - key b.

(** [process.env.AI_PROVIDER_STRATEGY || "cost_then_failover"]: unset and
    empty both give the default. *)
Definition strategy_or_default (v : option string) : string :=
  match v with
  | Some s => if bool_decide (s = "") then "cost_then_failover" else s
  | None => "cost_then_failover"
  end.

(** [String.prototype.toLowerCase], on the ASCII letters: no other character
    lowers to a letter of "fixed_order". *)
Fixpoint toLowerCase (s : string) : string :=
  match s with
  | EmptyString => EmptyString
  | String c s' => String (fold_case c) (toLowerCase s')
  end.

Definition rankProviders (strategy_var : option string) (r : Router)
    (estTokens : Z) : list RoutedProvider :=
  let strategy := toLowerCase (strategy_or_default strategy_var) in
  if bool_decide (strategy = "fixed_order") then providers r
  else array_sort (by_key (λ p, estimateCostUsd p estTokens)) (providers r).

Local Close Scope Qc_scope.

Local Close Scope string_scope.

(** ** The router's methods *)

(** One provider call of the log: who was called and how the call ended. *)
Record Call : Type := mkCall {
  callee : RoutedProvider;
  outcome : Outcome
}.

(** What a method can read and change: the instance, the number of
    interactions with the outside so far, the calls so far. *)
Record Machine : Type := mkMachine {
  self : Router;
  steps : nat;
  calls : list Call
}.

(** The outside world: the clock, the providers, the prompt builder and the
    ranking strategy variable. *)
Record World : Type := mkWorld {
  now_at : nat → Z;
  analyze_at : AIProvider → Request → nat → Outcome;
  buildAnalysisPrompt : string → list string → string;
  AI_PROVIDER_STRATEGY : option string
}.

Definition Run (A : Type) : Type := Machine → A * Machine.

Definition ret {A : Type} (a : A) : Run A := λ m, (a, m).
Definition bind {A B : Type} (x : Run A) (f : A → Run B) : Run B :=
  λ m, let '(a, m') := x m in f a m'.

Declare Scope run_scope.
Delimit Scope run_scope with run.
Bind Scope run_scope with Run.
Notation "x ← y ; z" := (bind y (λ x : _, z))
  (at level 20, y at level 100, z at level 200, only parsing) : run_scope.
Notation "x ;; z" := (bind x (λ _, z))
  (at level 100, z at level 200, only parsing, right associativity) : run_scope.
Local Open Scope run_scope.

(** [a || b] on two method calls: [b] runs only when [a] gave [false]. *)
Definition or_else (a b : Run bool) : Run bool :=
  x ← a; if x then ret true else b.

(** One more interaction with the outside has taken place. *)
Definition tick (m : Machine) : Machine :=
  {| self := self m; steps := S (steps m); calls := calls m |}.

Definition get_self : Run Router := λ m, (self m, m).
Definition put_self (r : Router) : Run unit :=
  λ m, (tt, {| self := r; steps := steps m; calls := calls m |}).

(** The result of method [analyzeData], by the statement that ends it. *)
Inductive RouteResult : Type :=
  | Returned (result : AnalysisResult)   (* return result *)
  | ThrewMapped (e : AIProviderError)    (* throw mapped *)
  | ThrewLast (e : Thrown)               (* throw lastErr *)
  | ThrewAllFailed.                      (* throw new Error("All AI providers failed") *)

(** How the [for] loop ends. *)
Inductive LoopResult : Type :=
  | LoopReturned (result : AnalysisResult)
  | LoopThrew (mapped : AIProviderError)
  | LoopDone (lastErr : option Thrown).

Section Methods.
Context (world : World).

Definition Date_now : Run Z := λ m, (now_at world (steps m), tick m).

(** [await c.provider.analyzeData(structuredData, notes, requestId)] *)
Definition call_provider (c : RoutedProvider) (req : Request) : Run Outcome :=
  λ m, let o := analyze_at world (provider c) req (steps m) in
       (o, {| self := self m; steps := S (steps m);
              calls := (calls m ++ [ {| callee := c; outcome := o |} ])%list |}).

Definition state_get (nm : ProviderName) : Run (option ProviderState) :=
  r ← get_self; ret (state r !! nm).

(** The assignments to the fields of the object [state.get(name)] returned. *)
Definition state_set (nm : ProviderName) (s : ProviderState) : Run unit :=
  r ← get_self; put_self (with_state (<[nm := s]> (state r)) r).

Definition isInCooldown (nm : ProviderName) : Run bool :=
  s ← state_get nm;
  match s with
  | None => ret false
  | Some s => now ← Date_now; ret (bool_decide (now < cooldown_until_ms s))
  end.

Definition cooldown (nm : ProviderName) (ms : Z) : Run unit :=
  s ← state_get nm;
  match s with
  | None => ret tt
  | Some s =>
      now ← Date_now;
      state_set nm
        {| cooldown_until_ms := Z.max (cooldown_until_ms s) (now + ms);
           consecutive_failures := consecutive_failures s;
           disabled_until_ms := disabled_until_ms s;
           last_error := last_error s |}
  end.

Definition isDisabled (nm : ProviderName) : Run bool :=
  s ← state_get nm;
  match s with
  | None => ret false
  | Some s => now ← Date_now; ret (bool_decide (now < disabled_until_ms s))
  end.

Definition disable (nm : ProviderName) (ms : Z) : Run unit :=
  s ← state_get nm;
  match s with
  | None => ret tt
  | Some s =>
      now ← Date_now;
      state_set nm
        {| cooldown_until_ms := cooldown_until_ms s;
           consecutive_failures := consecutive_failures s;
           disabled_until_ms := Z.max (disabled_until_ms s) (now + ms);
           last_error := last_error s |}
  end.

Definition markSuccess (nm : ProviderName) : Run unit :=
  s ← state_get nm;
  match s with
  | None => ret tt
  | Some s =>
      state_set nm
        {| cooldown_until_ms := 0;
           consecutive_failures := 0;
           disabled_until_ms := disabled_until_ms s;
           last_error := last_error s |}
  end.

Definition markFailure (nm : ProviderName) : Run unit :=
  s ← state_get nm;
  match s with
  | None => ret tt
  | Some s =>
      state_set nm
        {| cooldown_until_ms := cooldown_until_ms s;
           consecutive_failures := consecutive_failures s + 1;
           disabled_until_ms := disabled_until_ms s;
           last_error := last_error s |}
  end.

(** [at] is kept as the clock reading [new Date()] takes. *)
Definition recordError (nm : ProviderName) (err : AIProviderError) : Run unit :=
  s ← state_get nm;
  match s with
  | None => ret tt
  | Some s =>
      now ← Date_now;
      state_set nm
        {| cooldown_until_ms := cooldown_until_ms s;
           consecutive_failures := consecutive_failures s;
           disabled_until_ms := disabled_until_ms s;
           last_error := Some {| le_status := err_status err;
                                 le_message := err_message err;
                                 le_at := now |} |}
  end.

(** The sliding window kept by [checkAndConsumeLocalQuota]: the entries of
    [arr] that are not older than [windowStart]. *)
Definition fresh_of (windowStart : Z) (arr : list Z) : list Z :=
  filter (λ t : Z, windowStart ≤ t) arr.

Definition checkAndConsumeLocalQuota (nm : ProviderName) : Run bool :=
  now ← Date_now;
  r ← get_self;
  let windowStart := now - localQuotaWindowMs r in
  let arr := default [] (localQuota r !! nm) in
  let fresh := fresh_of windowStart arr in
  if bool_decide (localQuotaMax r ≤ Z.of_nat (length fresh)) then
    put_self (with_localQuota (<[nm := fresh]> (localQuota r)) r);;
    ret false
  else
    put_self (with_localQuota (<[nm := (fresh ++ [now])%list]> (localQuota r)) r);;
    ret true.

Record QuotaState : Set := mkQuotaState {
  used : nat;
  max : Z;
  window_ms : Z
}.

Definition getLocalQuotaState (nm : ProviderName) : Run QuotaState :=
  now ← Date_now;
  r ← get_self;
  let windowStart := now - localQuotaWindowMs r in
  let arr := fresh_of windowStart (default [] (localQuota r !! nm)) in
  ret {| used := length arr; max := localQuotaMax r;
          window_ms := localQuotaWindowMs r |}.

Definition status_is (status : option Z) (code : Z) : bool :=
  bool_decide (status = Some code).

(** The [for (const c of candidates)] loop of [analyzeData]; the log calls
    change no state and are left out. *)
Fixpoint route_loop (req : Request) (candidates : list RoutedProvider)
    (lastErr : option Thrown) : Run LoopResult :=
  match candidates with
  | [] => ret (LoopDone lastErr)
  | c :: rest =>
      skip ← or_else (isDisabled (name c)) (isInCooldown (name c));
      if skip then route_loop req rest lastErr
      else
        quotaOk ← checkAndConsumeLocalQuota (name c);
        _ ← getLocalQuotaState (name c);
        if negb quotaOk then
          r ← get_self;
          cooldown (name c) (rateLimitCooldownMs r);;
          route_loop req rest lastErr
        else
          o ← call_provider c req;
          match o with
          | Resolved result =>
              markSuccess (name c);;
              ret (LoopReturned result)
          | Rejected err =>
              let mapped := toProviderError (name c) err in
              recordError (name c) mapped;;
              r ← get_self;
              let status := err_status mapped in
              if status_is status 401 || status_is status 403 then
                disable (name c) (authDisableMs r);;
                markFailure (name c);;
                route_loop req rest (Some err)
              else if status_is status 402 then
                disable (name c) (paymentDisableMs r);;
                markFailure (name c);;
                route_loop req rest (Some err)
              else if status_is status 429 then
                cooldown (name c) (rateLimitCooldownMs r);;
                markFailure (name c);;
                route_loop req rest (Some err)
              else if err_retryable mapped then
                cooldown (name c) (errorCooldownMs r);;
                markFailure (name c);;
                route_loop req rest (Some err)
              else ret (LoopThrew mapped)
          end
  end.

(** The two statements after the loop. *)
Definition after_loop (lastErr : option Thrown) : RouteResult :=
  match lastErr with
  | Some e => if instanceof_Error e then ThrewLast e else ThrewAllFailed
  | None => ThrewAllFailed
  end.

Definition analyzeData (req : Request) : Run RouteResult :=
  let prompt := buildAnalysisPrompt world (structuredData req) (notes req) in
  let estTokens := estimateTokens prompt in
  r ← get_self;
  let candidates := rankProviders (AI_PROVIDER_STRATEGY world) r estTokens in
  res ← route_loop req candidates None;
  ret match res with
       | LoopReturned result => Returned result
       | LoopThrew mapped => ThrewMapped mapped
       | LoopDone lastErr => after_loop lastErr
       end.

End Methods.

(** ** Definitions used to state the properties *)

(** The retryable flag as the design document words it: decided by the one
    category the precedence order picked, [false] for authorization (401) and
    payment (402), [true] otherwise. *)
Definition retryable_by_category (status : option Z) : bool :=
  negb (bool_decide (status = Some 401) || bool_decide (status = Some 402)).

(** A thrown value that is not an [AIProviderError]. *)
Definition unstructured (err : Thrown) : Prop :=
  match err with
  | ThrownProviderError _ => False
  | ThrownError _ | ThrownValue _ => True
  end.





(** [k] quota admissions asked for one after the other. *)
Fixpoint consume_times (world : World) (nm : ProviderName) (k : nat) : Run (list bool) :=
  match k with
  | O => ret []
  | S k' =>
      ok ← checkAndConsumeLocalQuota world nm;
      oks ← consume_times world nm k';
      ret (ok :: oks)
  end.

(** The failure the log ends with, if the calls made were all failures. *)
Definition last_failure (cs : list Call) : option Thrown :=
  match last cs with
  | Some {| outcome := Rejected e |} => Some e
  | _ => None
  end.

(** The four failover branches of the [catch] block: the penalty each puts
    on the failed provider. *)
Inductive penalised (world : World) (nm : ProviderName)
    (mapped : AIProviderError) (m : Machine) : Machine → Prop :=
  | penalised_auth :
      status_is (err_status mapped) 401 || status_is (err_status mapped) 403 = true →
      penalised world nm mapped m
        (snd (markFailure nm (snd (disable world nm (authDisableMs (self m)) m))))
  | penalised_payment :
      status_is (err_status mapped) 401 || status_is (err_status mapped) 403 = false →
      status_is (err_status mapped) 402 = true →
      penalised world nm mapped m
        (snd (markFailure nm (snd (disable world nm (paymentDisableMs (self m)) m))))
  | penalised_rate_limit :
      status_is (err_status mapped) 401 || status_is (err_status mapped) 403 = false →
      status_is (err_status mapped) 402 = false →
      status_is (err_status mapped) 429 = true →
      penalised world nm mapped m
        (snd (markFailure nm (snd (cooldown world nm (rateLimitCooldownMs (self m)) m))))
  | penalised_retryable :
      status_is (err_status mapped) 401 || status_is (err_status mapped) 403 = false →
      status_is (err_status mapped) 402 = false →
      status_is (err_status mapped) 429 = false →
      err_retryable mapped = true →
      penalised world nm mapped m
        (snd (markFailure nm (snd (cooldown world nm (errorCooldownMs (self m)) m)))).

(** The error is none of the four: the loop is left by [throw mapped]. *)
Definition fatal (mapped : AIProviderError) : Prop :=
  status_is (err_status mapped) 401 || status_is (err_status mapped) 403 = false ∧
  status_is (err_status mapped) 402 = false ∧
  status_is (err_status mapped) 429 = false ∧
  err_retryable mapped = false.

(** The runs of the loop, one rule per way through its body. *)
Inductive loop_run (world : World) (req : Request) :
    list RoutedProvider → option Thrown → Machine → LoopResult → Machine → Prop :=
  | loop_done lastErr m :
      loop_run world req [] lastErr m (LoopDone lastErr) m
  | loop_skip c rest lastErr m m1 res m' :
      or_else (isDisabled world (name c)) (isInCooldown world (name c)) m = (true, m1) →
      loop_run world req rest lastErr m1 res m' →
      loop_run world req (c :: rest) lastErr m res m'
  | loop_quota c rest lastErr m m1 m2 res m' :
      or_else (isDisabled world (name c)) (isInCooldown world (name c)) m = (false, m1) →
      checkAndConsumeLocalQuota world (name c) m1 = (false, m2) →
      loop_run world req rest lastErr
        (snd (cooldown world (name c) (rateLimitCooldownMs (self m2)) (tick m2)))
        res m' →
      loop_run world req (c :: rest) lastErr m res m'
  | loop_success c rest lastErr m m1 m2 m3 result :
      or_else (isDisabled world (name c)) (isInCooldown world (name c)) m = (false, m1) →
      checkAndConsumeLocalQuota world (name c) m1 = (true, m2) →
      call_provider world c req (tick m2) = (Resolved result, m3) →
      loop_run world req (c :: rest) lastErr m (LoopReturned result)
        (snd (markSuccess (name c) m3))
  | loop_failover c rest lastErr m m1 m2 m3 m4 err res m' :
      or_else (isDisabled world (name c)) (isInCooldown world (name c)) m = (false, m1) →
      checkAndConsumeLocalQuota world (name c) m1 = (true, m2) →
      call_provider world c req (tick m2) = (Rejected err, m3) →
      penalised world (name c) (toProviderError (name c) err)
        (snd (recordError world (name c) (toProviderError (name c) err) m3)) m4 →
      loop_run world req rest (Some err) m4 res m' →
      loop_run world req (c :: rest) lastErr m res m'
  | loop_abort c rest lastErr m m1 m2 m3 err :
      or_else (isDisabled world (name c)) (isInCooldown world (name c)) m = (false, m1) →
      checkAndConsumeLocalQuota world (name c) m1 = (true, m2) →
      call_provider world c req (tick m2) = (Rejected err, m3) →
      fatal (toProviderError (name c) err) →
      loop_run world req (c :: rest) lastErr m
        (LoopThrew (toProviderError (name c) err))
        (snd (recordError world (name c) (toProviderError (name c) err) m3)).

(** Candidates that stay disabled or cooling for the whole request. *)
Definition all_ineligible (world : World) (candidates : list RoutedProvider)
    (m : Machine) : Prop :=
  ∀ c, c ∈ candidates →
    ∃ s, state (self m) !! name c = Some s ∧
         ((∀ k, (steps m ≤ k)%nat → now_at world k < disabled_until_ms s) ∨
          (∀ k, (steps m ≤ k)%nat → now_at world k < cooldown_until_ms s)).

(** How the calls [l] a run of the loop has logged relate to its result. *)
Definition log_ends (res : LoopResult) (lastErr : option Thrown) (l : list Call) : Prop :=
  match res with
  | LoopReturned result =>
      ∃ c, last l = Some {| callee := c; outcome := Resolved result |}
  | LoopThrew mapped =>
      ∃ c e, last l = Some {| callee := c; outcome := Rejected e |} ∧
             mapped = toProviderError (name c) e
  | LoopDone lastErr' =>
      (l = [] ∧ lastErr' = lastErr) ∨
      ∃ c e, last l = Some {| callee := c; outcome := Rejected e |} ∧
             lastErr' = Some e
  end.

(** The health state [recordError] leaves: only [last_error] is new. *)
Definition recorded (s : ProviderState) (mapped : AIProviderError) (now : Z) : ProviderState :=
  {| cooldown_until_ms := cooldown_until_ms s;
     consecutive_failures := consecutive_failures s;
     disabled_until_ms := disabled_until_ms s;
     last_error := Some {| le_status := err_status mapped;
                           le_message := err_message mapped;
                           le_at := now |} |}.

(** The machine after candidate [c], registered with state [s] in [m], was
    found eligible, admitted by the quota, called, and its failure [err]
    recorded: six interactions with the outside later. *)
Definition after_record (world : World) (c : RoutedProvider) (err : Thrown)
    (s : ProviderState) (m : Machine) : Machine :=
  let now := now_at world (2 + steps m) in
  let fresh := fresh_of (now - localQuotaWindowMs (self m))
                 (default [] (localQuota (self m) !! name c)) in
  {| self :=
       with_state
         (<[name c := recorded s (toProviderError (name c) err)
                        (now_at world (5 + steps m))]> (state (self m)))
         (with_localQuota (<[name c := fresh ++ [now]]> (localQuota (self m)))
            (self m));
     steps := 6 + steps m;
     calls := calls m ++ [ {| callee := c; outcome := Rejected err |} ] |}.

(** ** The provider services' error mapping *)

(** What the [catch] block of a provider service reads from the error it
    caught: [code], [response?.status], the two messages a response body may
    carry, and the error's own message.  An absent or empty body message is
    falsy. *)
Record AxiosFailure : Set := mkAxiosFailure {
  code : option string;
  response_status : option Z;
  data_error_message : option string;
  data_message : option string;
  axios_message : string
}.

(** [a || b], on optional strings. *)
Definition or_string (a : option string) (b : string) : string :=
  match a with
  | Some s => if bool_decide (s = ""%string) then b else s
  | None => b
  end.

Definition is_timeout (f : AxiosFailure) : bool :=
  bool_decide (code f = Some "ECONNABORTED"%string).

(** The [catch] block of [ClaudeService.analyzeData]. *)
Definition claude_failure (f : AxiosFailure) : AIProviderError :=
  let status := response_status f in
  if is_timeout f then
    new_AIProviderError claude "Claude request timeout" status (Some true)
  else
    let retryable :=
      match status with
      | Some s => bool_decide (s = 429) || bool_decide (500 ≤ s)
      | None => true
      end in
    let apiMsg :=
      or_string (data_error_message f) (or_string (data_message f) (axios_message f)) in
    new_AIProviderError claude ("Claude error: " ++ apiMsg)%string status
      (Some (if status_is status 401 || status_is status 403 then false else retryable)).

(** The [catch] blocks of [OpenAIService.analyzeData] and
    [DeepSeekService.analyzeData], which differ in the provider and the
    label only; the status is tested for truthiness, so 0 counts as absent. *)
Definition chat_failure (p : ProviderName) (label : string) (f : AxiosFailure)
    : AIProviderError :=
  let status := response_status f in
  if is_timeout f then
    new_AIProviderError p (label ++ " request timeout")%string status (Some true)
  else
    let retryable :=
      match status with
      | Some s =>
          if bool_decide (s = 0) then true
          else bool_decide (s = 429) || bool_decide (500 ≤ s)
      | None => true
      end in
    new_AIProviderError p (label ++ " error: " ++ axios_message f)%string status
      (Some retryable).

Definition openai_failure : AxiosFailure → AIProviderError :=
  chat_failure openai "OpenAI".
Definition deepseek_failure : AxiosFailure → AIProviderError :=
  chat_failure deepseek "DeepSeek".

(** What a service throws before any request when its key is not set. *)
Definition missing_key (p : ProviderName) (variable : string) : AIProviderError :=
  new_AIProviderError p (variable ++ " is missing")%string None (Some false).

(** ** The router over its lifetime *)

(** Requests served one after the other by the same instance. *)
Fixpoint serve (world : World) (reqs : list Request) : Run (list RouteResult) :=
  match reqs with
  | [] => ret []
  | req :: reqs' =>
      res ← analyzeData world req;
      rest ← serve world reqs';
      ret (res :: rest)
  end.

(** The fields the constructor sets once. *)
Definition same_config (r r' : Router) : Prop :=
  providers r' = providers r ∧
  rateLimitCooldownMs r' = rateLimitCooldownMs r ∧
  errorCooldownMs r' = errorCooldownMs r ∧
  authDisableMs r' = authDisableMs r ∧
  paymentDisableMs r' = paymentDisableMs r ∧
  localQuotaMax r' = localQuotaMax r ∧
  localQuotaWindowMs r' = localQuotaWindowMs r.

(** The shape the two maps have: an entry for the registered names and for
    no other, quota lists no longer than the cap, counters and deadlines not
    negative. *)
Definition well_formed (r : Router) : Prop :=
  (∀ nm, is_Some (state r !! nm) ↔ nm ∈ name <$> providers r) ∧
  (∀ nm, is_Some (localQuota r !! nm) ↔ nm ∈ name <$> providers r) ∧
  (∀ nm l, localQuota r !! nm = Some l →
           Z.of_nat (length l) ≤ Z.max 0 (localQuotaMax r)) ∧
  (∀ nm s, state r !! nm = Some s →
           0 ≤ consecutive_failures s ∧ 0 ≤ cooldown_until_ms s ∧
           0 ≤ disabled_until_ms s).

(** No provider's disable deadline is earlier in [m'] than in [m]. *)
Definition disabled_le (m m' : Machine) : Prop :=
  ∀ nm s, state (self m) !! nm = Some s →
    ∃ s', state (self m') !! nm = Some s' ∧
          disabled_until_ms s ≤ disabled_until_ms s'.

(** What holds between a machine and a later one: the configuration is the
    same, the shape of the maps is kept, no disable deadline was moved back. *)
Definition evolves (m m' : Machine) : Prop :=
  same_config (self m) (self m') ∧
  (well_formed (self m) → well_formed (self m')) ∧
  disabled_le m m'.

(** ** Concrete inputs *)

Definition provider_A : RoutedProvider :=
  {| name := claude; provider := 0%nat; cost_per_1k := Some (Q2Qc (2 # 10000)) |}.
Definition provider_B : RoutedProvider :=
  {| name := openai; provider := 1%nat; cost_per_1k := Some (Q2Qc (1 # 10000)) |}.

(** A router with the default settings, as the constructor builds it (the
    second argument of [default] is never used on a non-empty list). *)
Definition router_of (ps : list RoutedProvider) : Router :=
  default {| providers := ps; state := ∅;
             rateLimitCooldownMs := 0; errorCooldownMs := 0;
             authDisableMs := 0; paymentDisableMs := 0;
             localQuotaMax := 0; localQuotaWindowMs := 0; localQuota := ∅ |}
          (new_ProviderRouter default_settings ps).

Definition start_of (r : Router) : Machine :=
  {| self := r; steps := 0; calls := [] |}.

Definition a_request : Request :=
  {| structuredData := "{}"; notes := ["quota test"%string]; requestId := "req-1" |}.

(** A world whose clock starts at [t0] and advances one millisecond per
    reading, and whose providers answer by [answer]. *)
Definition world_of (t0 : Z) (answer : AIProvider → Outcome) : World :=
  {| now_at := λ k, t0 + Z.of_nat k;
     analyze_at := λ p _ _, answer p;
     buildAnalysisPrompt := λ data _, data;
     AI_PROVIDER_STRATEGY := None |}.

(** The same with a clock that stands still. *)
Definition still_world (t0 : Z) (answer : AIProvider → Outcome) : World :=
  {| now_at := λ _, t0;
     analyze_at := λ p _ _, answer p;
     buildAnalysisPrompt := λ data _, data;
     AI_PROVIDER_STRATEGY := None |}.

Definition a_result : AnalysisResult :=
  {| summary := "ok"; key_insights := []; next_actions := [];
     model_version := "m"; raw_response := "{}" |}.

Definition error_401 : Thrown :=
  ThrownProviderError (new_AIProviderError claude "Claude error: invalid x-api-key"
                         (Some 401) (Some false)).

Definition error_429 : Thrown :=
  ThrownProviderError (new_AIProviderError openai "OpenAI error: rate limit reached"
                         (Some 429) (Some true)).

(** What [ClaudeService] throws when its key is not configured. *)
Definition error_missing_key : Thrown :=
  ThrownProviderError (new_AIProviderError claude "CLAUDE_API_KEY is missing"
                         None (Some false)).

(** * Properties *)

(** ** Running the methods *)

Ltac run_step :=
  unfold or_else, isDisabled, isInCooldown, cooldown, disable, markSuccess,
    markFailure, recordError, checkAndConsumeLocalQuota, getLocalQuotaState,
    call_provider, state_get, state_set, Date_now, get_self, put_self,
    bind, ret, tick; simpl.

Section RunLemmas.
Context (world : World).

Lemma run_isDisabled nm m :
  isDisabled world nm m =
  match state (self m) !! nm with
  | None => (false, m)
  | Some s => (bool_decide (now_at world (steps m) < disabled_until_ms s), tick m)
  end.
Proof. run_step. by destruct (state (self m) !! nm). Qed.

Lemma run_isInCooldown nm m :
  isInCooldown world nm m =
  match state (self m) !! nm with
  | None => (false, m)
  | Some s => (bool_decide (now_at world (steps m) < cooldown_until_ms s), tick m)
  end.
Proof. run_step. by destruct (state (self m) !! nm). Qed.

(** The skip test on a registered provider, by the two clock readings it
    can take. *)
Lemma run_skip_test nm s m :
  state (self m) !! nm = Some s →
  or_else (isDisabled world nm) (isInCooldown world nm) m =
  if bool_decide (now_at world (steps m) < disabled_until_ms s)
  then (true, tick m)
  else (bool_decide (now_at world (S (steps m)) < cooldown_until_ms s),
        tick (tick m)).
Proof.
  intros Hs. unfold or_else, bind. rewrite run_isDisabled, Hs.
  case_bool_decide; [done|].
  rewrite run_isInCooldown. simpl. by rewrite Hs.
Qed.

Lemma run_cooldown nm ms m :
  cooldown world nm ms m =
  match state (self m) !! nm with
  | None => (tt, m)
  | Some s =>
      (tt, {| self := with_state
                (<[nm := {| cooldown_until_ms :=
                              Z.max (cooldown_until_ms s)
                                    (now_at world (steps m) + ms);
                            consecutive_failures := consecutive_failures s;
                            disabled_until_ms := disabled_until_ms s;
                            last_error := last_error s |}]> (state (self m)))
                (self m);
              steps := S (steps m); calls := calls m |})
  end.
Proof. run_step. by destruct (state (self m) !! nm). Qed.

Lemma run_disable nm ms m :
  disable world nm ms m =
  match state (self m) !! nm with
  | None => (tt, m)
  | Some s =>
      (tt, {| self := with_state
                (<[nm := {| cooldown_until_ms := cooldown_until_ms s;
                            consecutive_failures := consecutive_failures s;
                            disabled_until_ms :=
                              Z.max (disabled_until_ms s)
                                    (now_at world (steps m) + ms);
                            last_error := last_error s |}]> (state (self m)))
                (self m);
              steps := S (steps m); calls := calls m |})
  end.
Proof. run_step. by destruct (state (self m) !! nm). Qed.

Lemma run_markFailure nm m :
  markFailure nm m =
  match state (self m) !! nm with
  | None => (tt, m)
  | Some s =>
      (tt, {| self := with_state
                (<[nm := {| cooldown_until_ms := cooldown_until_ms s;
                            consecutive_failures := consecutive_failures s + 1;
                            disabled_until_ms := disabled_until_ms s;
                            last_error := last_error s |}]> (state (self m)))
                (self m);
              steps := steps m; calls := calls m |})
  end.
Proof. run_step. by destruct (state (self m) !! nm). Qed.

Lemma run_markSuccess nm m :
  markSuccess nm m =
  match state (self m) !! nm with
  | None => (tt, m)
  | Some s =>
      (tt, {| self := with_state
                (<[nm := {| cooldown_until_ms := 0;
                            consecutive_failures := 0;
                            disabled_until_ms := disabled_until_ms s;
                            last_error := last_error s |}]> (state (self m)))
                (self m);
              steps := steps m; calls := calls m |})
  end.
Proof. run_step. by destruct (state (self m) !! nm). Qed.

Lemma run_recordError nm err m :
  recordError world nm err m =
  match state (self m) !! nm with
  | None => (tt, m)
  | Some s =>
      (tt, {| self := with_state
                (<[nm := {| cooldown_until_ms := cooldown_until_ms s;
                            consecutive_failures := consecutive_failures s;
                            disabled_until_ms := disabled_until_ms s;
                            last_error :=
                              Some {| le_status := err_status err;
                                      le_message := err_message err;
                                      le_at := now_at world (steps m) |} |}]>
                   (state (self m)))
                (self m);
              steps := S (steps m); calls := calls m |})
  end.
Proof. run_step. by destruct (state (self m) !! nm). Qed.

Lemma run_checkAndConsumeLocalQuota nm m :
  checkAndConsumeLocalQuota world nm m =
  let now := now_at world (steps m) in
  let fresh := fresh_of (now - localQuotaWindowMs (self m))
                 (default [] (localQuota (self m) !! nm)) in
  if bool_decide (localQuotaMax (self m) ≤ Z.of_nat (length fresh)) then
    (false, {| self := with_localQuota (<[nm := fresh]> (localQuota (self m))) (self m);
               steps := S (steps m); calls := calls m |})
  else
    (true, {| self := with_localQuota (<[nm := fresh ++ [now]]> (localQuota (self m)))
                        (self m);
              steps := S (steps m); calls := calls m |}).
Proof. run_step. by case_bool_decide. Qed.

Lemma run_call_provider c req m :
  call_provider world c req m =
  (analyze_at world (provider c) req (steps m),
   {| self := self m; steps := S (steps m);
      calls := calls m ++ [ {| callee := c;
                               outcome := analyze_at world (provider c) req (steps m) |} ] |}).
Proof. reflexivity. Qed.

Lemma run_getLocalQuotaState nm m :
  snd (getLocalQuotaState world nm m) = tick m.
Proof. by run_step. Qed.

End RunLemmas.

(** ** The constructor *)

Section Constructor.

Lemma register_all_settings ps r :
  let r' := fold_left register_provider ps r in
  providers r' = providers r ∧
  rateLimitCooldownMs r' = rateLimitCooldownMs r ∧
  errorCooldownMs r' = errorCooldownMs r ∧
  authDisableMs r' = authDisableMs r ∧
  paymentDisableMs r' = paymentDisableMs r ∧
  localQuotaMax r' = localQuotaMax r ∧
  localQuotaWindowMs r' = localQuotaWindowMs r.
Proof.
  revert r. induction ps as [|p ps IH]; intros r; simpl; [done|].
  apply (IH (register_provider r p)).
Qed.

Lemma register_all_other ps r nm :
  nm ∉ name <$> ps →
  state (fold_left register_provider ps r) !! nm = state r !! nm ∧
  localQuota (fold_left register_provider ps r) !! nm = localQuota r !! nm.
Proof.
  revert r. induction ps as [|p ps IH]; intros r Hnm; simpl; [done|].
  rewrite fmap_cons, not_elem_of_cons in Hnm. destruct Hnm as [Hne Hnm].
  destruct (IH (register_provider r p) Hnm) as [-> ->]. simpl.
  by rewrite !lookup_insert_ne.
Qed.

Lemma register_all_member ps r nm :
  nm ∈ name <$> ps →
  state (fold_left register_provider ps r) !! nm = Some fresh_state ∧
  localQuota (fold_left register_provider ps r) !! nm = Some [].
Proof.
  revert r. induction ps as [|p ps IH]; intros r Hnm; simpl.
  - by apply elem_of_nil in Hnm.
  - destruct (decide (nm ∈ name <$> ps)) as [Hin|Hout]; [by apply IH|].
    rewrite fmap_cons, elem_of_cons in Hnm. destruct Hnm as [->|Hin]; [|done].
    destruct (register_all_other ps (register_provider r p) (name p) Hout)
      as [-> ->].
    simpl. by rewrite !lookup_insert_eq.
Qed.

End Constructor.

(** C10. The constructor throws exactly when the provider list is empty;
    otherwise the instance keeps the list and the parsed settings, and every
    provider of the list has the health state [cooldown_until_ms = 0],
    [consecutive_failures = 0], [disabled_until_ms = 0], no [last_error], and
    an empty quota list, so that at any clock reading that is not negative
    the skip test of the routing loop answers [false] for it. *)
Theorem constructor_initial_state (cfg : Settings) (ps : list RoutedProvider) :
  (new_ProviderRouter cfg ps = None ↔ ps = []) ∧
  (ps ≠ [] →
   ∃ r, new_ProviderRouter cfg ps = Some r ∧
        providers r = ps ∧
        rateLimitCooldownMs r = AI_RL_COOLDOWN_MS cfg ∧
        errorCooldownMs r = AI_ERR_COOLDOWN_MS cfg ∧
        authDisableMs r = AI_AUTH_DISABLE_MS cfg ∧
        paymentDisableMs r = AI_PAYMENT_DISABLE_MS cfg ∧
        localQuotaMax r = AI_LOCAL_QUOTA_MAX cfg ∧
        localQuotaWindowMs r = AI_LOCAL_QUOTA_WINDOW_MS cfg ∧
        ∀ p, p ∈ ps →
          state r !! name p = Some fresh_state ∧
          localQuota r !! name p = Some [] ∧
          ∀ world m, self m = r → (∀ k, 0 ≤ now_at world k) →
            fst (or_else (isDisabled world (name p))
                         (isInCooldown world (name p)) m) = false).
Proof.
  split.
  - unfold new_ProviderRouter. destruct ps; simpl; split; intros; done.
  - intros Hne. unfold new_ProviderRouter.
    case_bool_decide as Hlen; [by destruct ps|].
    eexists. split; [reflexivity|].
    match goal with |- context [fold_left register_provider ps ?r0] =>
      pose proof (register_all_settings ps r0) as Hset; simpl in Hset
    end.
    destruct Hset as (? & ? & ? & ? & ? & ? & ?).
    do 7 (split; [done|]).
    intros p Hp.
    match goal with |- context [fold_left register_provider ps ?r0] =>
      destruct (register_all_member ps r0 (name p)) as [Hst Hq]
    end.
    { by apply list_elem_of_fmap_2. }
    do 2 (split; [done|]).
    intros world m Hm Hclock.
    rewrite (run_skip_test world (name p) fresh_state m) by (by rewrite Hm).
    simpl. pose proof (Hclock (steps m)). pose proof (Hclock (S (steps m))).
    rewrite !bool_decide_eq_false_2 by lia. done.
Qed.

(** The constructor on no provider and on one provider. *)
Lemma constructor_initial_state_witness :
  new_ProviderRouter default_settings [] = None ∧
  ∃ r, new_ProviderRouter default_settings [provider_A] = Some r ∧
       state r !! claude = Some fresh_state ∧
       localQuota r !! claude = Some [] ∧
       fst (or_else (isDisabled (world_of 1000 (λ _, Resolved a_result)) claude)
                    (isInCooldown (world_of 1000 (λ _, Resolved a_result)) claude)
                    (start_of r)) = false.
Proof.
  split.
  - by apply (constructor_initial_state default_settings []).
  - destruct (constructor_initial_state default_settings [provider_A])
      as [_ H].
    destruct H as (r & Hr & _ & _ & _ & _ & _ & _ & _ & Hp); [done|].
    exists r. split; [done|].
    destruct (Hp provider_A) as (Hs & Hq & Hel); [apply list_elem_of_here|].
    do 2 (split; [done|]).
    apply Hel; [done|]. intros k. simpl. lia.
Defined.

(** ** Error mapping *)

(** An error that is an [AIProviderError] already is handed back as it is. *)
Lemma toProviderError_structured nm e :
  toProviderError nm (ThrownProviderError e) = e.
Proof. reflexivity. Qed.

(** C2, as worded, fails: a message with a rate-limit indicator and an
    authorization indicator is given status 429, which is neither the
    authorization nor the payment category, and yet is not retryable. *)
Lemma retryable_not_by_category :
  let e := toProviderError claude (ThrownError "429 unauthorized") in
  err_status e = Some 429 ∧
  retryable_by_category (err_status e) = true ∧
  err_retryable e = false ∧
  err_retryable e ≠ retryable_by_category (err_status e).
Proof. vm_compute. repeat split; congruence. Qed.

(** C2, amended. For a thrown value that is not an [AIProviderError] the
    message is the error's message (or the value as a string), the status
    follows the precedence rate limit (429), authorization (401), payment
    (402), none, and the retryable flag is [false] exactly when the message
    has an authorization or a payment indicator, whatever the status.  Without
    a rate-limit indicator this is the flag of the category chosen.  A
    message with "insufficient credit" is never retryable and has status 402
    unless a rate-limit or authorization indicator comes first. *)
Theorem toProviderError_classifies (nm : ProviderName) (err : Thrown) :
  unstructured err →
  let msg := message_of err in
  let e := toProviderError nm err in
  err_provider e = nm ∧
  err_message e = msg ∧
  err_status e =
    (if looksLikeRateLimit msg then Some 429
     else if looksLikeAuth msg then Some 401
     else if looksLikePayment msg then Some 402
     else None) ∧
  err_retryable e = negb (looksLikeAuth msg || looksLikePayment msg) ∧
  (looksLikeRateLimit msg = false →
   err_retryable e = retryable_by_category (err_status e)) ∧
  (occurs_i "insufficient credit" msg = true →
   err_retryable e = false ∧
   (looksLikeRateLimit msg = false → looksLikeAuth msg = false →
    err_status e = Some 402)).
Proof.
  intros Hplain msg e.
  assert (He : e = new_AIProviderError nm msg
                 (if looksLikeRateLimit msg then Some 429
                  else if looksLikeAuth msg then Some 401
                  else if looksLikePayment msg then Some 402
                  else None)
                 (Some (if looksLikeAuth msg || looksLikePayment msg
                        then false else true))).
  { subst e msg. by destruct err. }
  rewrite He. simpl.
  do 3 (split; [reflexivity|]).
  split; [|split].
  - by destruct (looksLikeAuth msg), (looksLikePayment msg).
  - intros ->. by destruct (looksLikeAuth msg), (looksLikePayment msg).
  - intros Hocc.
    assert (looksLikePayment msg = true) as ->.
    { unfold looksLikePayment, regex_test_i. simpl. rewrite Hocc.
      by rewrite !orb_true_r. }
    split; [by rewrite orb_true_r|]. by intros -> ->.
Qed.

(** A plain error whose message mentions insufficient credit. *)
Lemma toProviderError_classifies_witness :
  let e := toProviderError openai
             (ThrownError "Account has Insufficient Credit for this call") in
  err_status e = Some 402 ∧ err_retryable e = false.
Proof.
  pose proof (toProviderError_classifies openai
                (ThrownError "Account has Insufficient Credit for this call") I)
    as (_ & _ & _ & _ & _ & H).
  destruct H as [Hr Hs]; [reflexivity|].
  split; [apply Hs; reflexivity | exact Hr].
Defined.

(** ** The loop follows the rules of [loop_run] *)

Section LoopRuns.
Context (world : World) (req : Request).

Lemma bind_run {A B : Type} (x : Run A) (f : A → Run B) m :
  bind x f m = f (fst (x m)) (snd (x m)).
Proof. unfold bind. by destruct (x m). Qed.

Lemma route_loop_runs candidates lastErr m :
  loop_run world req candidates lastErr m
    (fst (route_loop world req candidates lastErr m))
    (snd (route_loop world req candidates lastErr m)).
Proof.
  revert lastErr m. induction candidates as [|c rest IH]; intros lastErr m.
  { apply loop_done. }
  cbn [route_loop]. rewrite bind_run.
  destruct (or_else (isDisabled world (name c)) (isInCooldown world (name c)) m)
    as [skip m1] eqn:Hskip.
  cbn [fst snd]. destruct skip.
  { eapply loop_skip; [exact Hskip | apply IH]. }
  rewrite bind_run.
  destruct (checkAndConsumeLocalQuota world (name c) m1) as [ok m2] eqn:Hq.
  cbn [fst snd]. rewrite bind_run, run_getLocalQuotaState.
  destruct ok; cbn [negb].
  - rewrite bind_run.
    destruct (call_provider world c req (tick m2)) as [o m3] eqn:Hcall.
    cbn [fst snd]. destruct o as [result|err].
    + rewrite bind_run. unfold ret. cbn [fst snd].
      eapply loop_success; eauto.
    + rewrite bind_run. unfold get_self at 1. rewrite bind_run. cbn [fst snd].
      set (mapped := toProviderError (name c) err).
      set (m4 := snd (recordError world (name c) mapped m3)).
      destruct (status_is (err_status mapped) 401 || status_is (err_status mapped) 403)
        eqn:Hauth.
      { rewrite !bind_run.
        eapply loop_failover; eauto using penalised. }
      destruct (status_is (err_status mapped) 402) eqn:Hpay.
      { rewrite !bind_run.
        eapply loop_failover; eauto using penalised. }
      destruct (status_is (err_status mapped) 429) eqn:Hrate.
      { rewrite !bind_run.
        eapply loop_failover; eauto using penalised. }
      destruct (err_retryable mapped) eqn:Hretry.
      { rewrite !bind_run.
        eapply loop_failover; eauto using penalised. }
      unfold ret. cbn [fst snd].
      eapply loop_abort; eauto. by repeat split.
  - rewrite !bind_run. unfold get_self. cbn [fst snd].
    eapply loop_quota; [exact Hskip | exact Hq | apply IH].
Qed.

End LoopRuns.

(** ** Deadlines only move forward under failures *)

Section Deadlines.
Context (world : World).










(** The read-only steps of the loop body. *)
Lemma skip_test_state nm m :
  self (snd (or_else (isDisabled world nm) (isInCooldown world nm) m)) = self m ∧
  calls (snd (or_else (isDisabled world nm) (isInCooldown world nm) m)) = calls m.
Proof.
  unfold or_else. rewrite bind_run, run_isDisabled.
  destruct (state (self m) !! nm) as [s|] eqn:Hs; simpl.
  - case_bool_decide; simpl; [done|].
    rewrite run_isInCooldown. simpl. by rewrite Hs.
  - rewrite run_isInCooldown. by rewrite Hs.
Qed.

Lemma checkAndConsumeLocalQuota_state nm m :
  state (self (snd (checkAndConsumeLocalQuota world nm m))) = state (self m) ∧
  calls (snd (checkAndConsumeLocalQuota world nm m)) = calls m.
Proof. rewrite run_checkAndConsumeLocalQuota. simpl. by case_bool_decide. Qed.



End Deadlines.

Lemma run_analyzeData world req m :
  analyzeData world req m =
  let candidates :=
    rankProviders (AI_PROVIDER_STRATEGY world) (self m)
      (estimateTokens (buildAnalysisPrompt world (structuredData req) (notes req))) in
  let run := route_loop world req candidates None m in
  (match fst run with
   | LoopReturned result => Returned result
   | LoopThrew mapped => ThrewMapped mapped
   | LoopDone lastErr => after_loop lastErr
   end, snd run).
Proof.
  unfold analyzeData. rewrite bind_run. unfold get_self at 1. cbn [fst snd].
  rewrite bind_run. reflexivity.
Qed.



(** ** Ranking *)

Section SortByKey.
Local Open Scope Qc_scope.
Context {A : Type} (key : A → Qc).


Lemma sort_insert_perm x l : sort_insert (by_key key) x l ≡ₚ x :: l.
Proof.
  induction l as [|y l IH]; simpl; [done|].
  case_bool_decide; [|done].
  rewrite IH. apply Permutation_swap.
Qed.

Lemma array_sort_perm l : array_sort (by_key key) l ≡ₚ l.
Proof.
  induction l as [|x l IH]; simpl; [done|].
  by rewrite sort_insert_perm, IH.
Qed.





End SortByKey.

Section Ranking.
Local Open Scope Qc_scope.


End Ranking.

(** Whatever the strategy, ranking rearranges the registered list. *)
Lemma rankProviders_perm strategy_var r tokens :
  rankProviders strategy_var r tokens ≡ₚ providers r.
Proof.
  unfold rankProviders. case_bool_decide; [done|].
  apply (array_sort_perm (λ p, estimateCostUsd p tokens)).
Qed.



(** ** Skipping ineligible candidates *)

Section Skipping.
Context (world : World) (req : Request).

Lemma route_loop_skip c rest lastErr m s :
  state (self m) !! name c = Some s →
  now_at world (steps m) < disabled_until_ms s ∨
  now_at world (S (steps m)) < cooldown_until_ms s →
  ∃ m', route_loop world req (c :: rest) lastErr m =
          route_loop world req rest lastErr m' ∧
        self m' = self m ∧ calls m' = calls m ∧
        (steps m < steps m')%nat.
Proof.
  intros Hs Hfuture. cbn [route_loop].
  rewrite bind_run, (run_skip_test world (name c) s m Hs).
  case_bool_decide as Hd; cbn [fst snd].
  - exists (tick m). repeat split. simpl. lia.
  - destruct Hfuture as [?|Hc]; [done|].
    rewrite bool_decide_eq_true_2 by done.
    exists (tick (tick m)). repeat split. simpl. lia.
Qed.

Lemma route_loop_all_ineligible candidates lastErr m :
  all_ineligible world candidates m →
  ∃ m', route_loop world req candidates lastErr m = (LoopDone lastErr, m') ∧
        self m' = self m ∧ calls m' = calls m.
Proof.
  revert m. induction candidates as [|c rest IH]; intros m Hall.
  { by exists m. }
  destruct (Hall c) as (s & Hs & Hfuture); [apply list_elem_of_here|].
  destruct (route_loop_skip c rest lastErr m s Hs) as (m1 & -> & Hself & Hcalls & Hsteps).
  { destruct Hfuture as [Hd|Hc]; [left; apply Hd; lia | right; apply Hc; lia]. }
  destruct (IH m1) as (m' & Hrun & Hself' & Hcalls').
  { intros c' Hc'. destruct (Hall c') as (s' & Hs' & Hf'); [by apply list_elem_of_further|].
    exists s'. rewrite Hself. split; [done|].
    destruct Hf' as [Hd|Hc]; [left|right]; intros k Hk; [apply Hd|apply Hc]; lia. }
  exists m'. rewrite Hrun. split; [done|]. split; congruence.
Qed.

End Skipping.

(** C5. For a registered candidate the skip test of the loop answers
    [false] exactly when the clock reading [isDisabled] takes is at or past
    [disabled_until_ms] and the reading [isInCooldown] takes is at or past
    [cooldown_until_ms].  A candidate with either deadline still ahead is
    passed over: the loop goes on with the remaining candidates, the router's
    fields and the log of provider calls being what they were.  And when all
    the candidates stay disabled or cooling for the whole request, no provider
    is called at all and the request ends with the "All AI providers failed"
    error. *)
Theorem ineligible_never_invoked (world : World) (req : Request)
    (c : RoutedProvider) (rest : list RoutedProvider) (lastErr : option Thrown)
    (m : Machine) (s : ProviderState) :
  state (self m) !! name c = Some s →
  (fst (or_else (isDisabled world (name c)) (isInCooldown world (name c)) m) = false ↔
   disabled_until_ms s ≤ now_at world (steps m) ∧
   cooldown_until_ms s ≤ now_at world (S (steps m))) ∧
  (now_at world (steps m) < disabled_until_ms s ∨
   now_at world (S (steps m)) < cooldown_until_ms s →
   ∃ m', route_loop world req (c :: rest) lastErr m =
           route_loop world req rest lastErr m' ∧
         self m' = self m ∧ calls m' = calls m) ∧
  (all_ineligible world (providers (self m)) m →
   ∃ m', analyzeData world req m = (ThrewAllFailed, m') ∧
         self m' = self m ∧ calls m' = calls m).
Proof.
  intros Hs. split; [|split].
  - rewrite (run_skip_test world (name c) s m Hs).
    case_bool_decide as Hd; cbn [fst].
    + split; [done|lia].
    + rewrite bool_decide_eq_false. lia.
  - intros Hfuture.
    destruct (route_loop_skip world req c rest lastErr m s Hs Hfuture)
      as (m' & ? & ? & ? & _).
    by exists m'.
  - intros Hall. rewrite run_analyzeData. cbn zeta.
    match goal with |- context [route_loop world req ?cs None m] =>
      destruct (route_loop_all_ineligible world req cs None m) as (m' & Hrun & ? & ?)
    end.
    { intros c' Hc'. apply Hall. by rewrite <-rankProviders_perm. }
    exists m'. by rewrite Hrun.
Qed.

(** A provider disabled until 5000 is asked for at time 1000. *)
Lemma ineligible_never_invoked_witness :
  let w := still_world 1000 (λ _, Resolved a_result) in
  let m := snd (disable w claude 4000 (start_of (router_of [provider_A]))) in
  disabled_until_ms <$> state (self m) !! claude = Some 5000 ∧
  ∃ m', analyzeData w a_request m = (ThrewAllFailed, m') ∧
        self m' = self m ∧ calls m' = [].
Proof.
  intros w m. split; [reflexivity|].
  destruct (ineligible_never_invoked w a_request provider_A [] None m
              {| cooldown_until_ms := 0; consecutive_failures := 0;
                 disabled_until_ms := 5000; last_error := None |})
    as (_ & _ & Hall); [reflexivity|].
  apply Hall. intros c Hc. apply list_elem_of_singleton in Hc as ->.
  eexists. split; [reflexivity|]. left. intros k _. simpl. lia.
Defined.

(** ** A successful call *)

Lemma loop_run_returned world req candidates lastErr m res m' :
  loop_run world req candidates lastErr m res m' →
  ∀ result, res = LoopReturned result →
  ∃ c, c ∈ candidates ∧
       last (calls m') = Some {| callee := c; outcome := Resolved result |} ∧
       ∀ s', state (self m') !! name c = Some s' →
             cooldown_until_ms s' = 0 ∧ consecutive_failures s' = 0.
Proof.
  induction 1 as
    [ lastErr m
    | c rest lastErr m m1 res m' Hskip _ IH
    | c rest lastErr m m1 m2 res m' Hskip Hq _ IH
    | c rest lastErr m m1 m2 m3 result0 Hskip Hq Hcall
    | c rest lastErr m m1 m2 m3 m4 err res m' Hskip Hq Hcall Hpen _ IH
    | c rest lastErr m m1 m2 m3 err Hskip Hq Hcall Hfatal ];
    intros result Hres; try discriminate.
  - destruct (IH result Hres) as (c' & ? & ?). exists c'.
    split; [by apply list_elem_of_further|done].
  - destruct (IH result Hres) as (c' & ? & ?). exists c'.
    split; [by apply list_elem_of_further|done].
  - injection Hres as ->. exists c. split; [apply list_elem_of_here|].
    unfold call_provider in Hcall. injection Hcall as Ho <-.
    rewrite run_markSuccess. cbn [self steps calls tick].
    destruct (state (self m2) !! name c) as [s|] eqn:Hs; cbn [snd calls self].
    + rewrite Ho, last_snoc. split; [done|].
      intros s'. cbn [state with_state]. rewrite lookup_insert_eq.
      by intros [= <-].
    + rewrite Ho, last_snoc. split; [done|]. intros s'. by rewrite Hs.
  - destruct (IH result Hres) as (c' & ? & ?). exists c'.
    split; [by apply list_elem_of_further|done].
Qed.

(** C7. When a registered candidate passes the skip test, is admitted by the
    quota and its call resolves, the loop ends there with that result: the
    candidate's [cooldown_until_ms] and [consecutive_failures] are 0, its
    [disabled_until_ms] and [last_error] are what they were, the health
    state of every other provider is what it was, and the one call added to
    the log is this one, so none of the remaining candidates is tried.
    Whenever [analyzeData] returns a result, that result is the outcome of
    the last call in the log, made to a registered provider whose cooldown
    and failure counter are then 0. *)
Theorem success_returns_at_once (world : World) (req : Request)
    (c : RoutedProvider) (rest : list RoutedProvider) (lastErr : option Thrown)
    (m : Machine) (s : ProviderState) (result : AnalysisResult) :
  state (self m) !! name c = Some s →
  disabled_until_ms s ≤ now_at world (steps m) →
  cooldown_until_ms s ≤ now_at world (1 + steps m) →
  Z.of_nat (length (fresh_of
              (now_at world (2 + steps m) - localQuotaWindowMs (self m))
              (default [] (localQuota (self m) !! name c))))
    < localQuotaMax (self m) →
  analyze_at world (provider c) req (4 + steps m) = Resolved result →
  ∃ m', route_loop world req (c :: rest) lastErr m = (LoopReturned result, m') ∧
        state (self m') !! name c =
          Some {| cooldown_until_ms := 0;
                  consecutive_failures := 0;
                  disabled_until_ms := disabled_until_ms s;
                  last_error := last_error s |} ∧
        (∀ n, n ≠ name c → state (self m') !! n = state (self m) !! n) ∧
        calls m' = calls m ++ [ {| callee := c; outcome := Resolved result |} ] ∧
        ∀ m0 m0' result0, analyzeData world req m0 = (Returned result0, m0') →
          ∃ c0, c0 ∈ providers (self m0) ∧
                last (calls m0') =
                  Some {| callee := c0; outcome := Resolved result0 |} ∧
                ∀ s', state (self m0') !! name c0 = Some s' →
                      cooldown_until_ms s' = 0 ∧ consecutive_failures s' = 0.
Proof.
  intros Hs Hd Hc Hq Hcall. cbn [route_loop].
  rewrite bind_run, (run_skip_test world (name c) s m Hs).
  rewrite !bool_decide_eq_false_2 by (simpl in *; lia). cbn [fst snd].
  rewrite bind_run, run_checkAndConsumeLocalQuota. cbn zeta.
  cbn [tick self steps calls].
  rewrite bool_decide_eq_false_2 by (simpl in *; lia). cbn [fst snd negb].
  rewrite bind_run, run_getLocalQuotaState.
  rewrite bind_run, run_call_provider. cbn [fst snd tick self steps calls].
  simpl in Hcall. rewrite Hcall.
  rewrite bind_run, run_markSuccess. cbn [self state with_localQuota with_state].
  rewrite Hs. cbn [fst snd]. unfold ret.
  eexists. split; [reflexivity|]. cbn [self state with_state calls].
  split; [by rewrite lookup_insert_eq|].
  split; [intros n Hn; by rewrite lookup_insert_ne|].
  split; [done|].
  intros m0 m0' result0. rewrite run_analyzeData. cbn zeta.
  match goal with |- context [route_loop world req ?cs None m0] =>
    pose proof (loop_run_returned world req cs None m0 _ _
                  (route_loop_runs world req cs None m0)) as Hret;
    destruct (route_loop world req cs None m0) as [[result1|mapped|le] m1]
  end; cbn [fst snd] in *.
  - intros [= <- <-]. destruct (Hret result1 eq_refl) as (c0 & Hc0 & ?).
    exists c0. split; [|done]. by rewrite <-rankProviders_perm.
  - discriminate.
  - unfold after_loop. destruct le as [e|]; [destruct (instanceof_Error e)|];
      discriminate.
Qed.

(** Two healthy providers, the first of which answers. *)
Lemma success_returns_at_once_witness :
  let w := world_of 1000 (λ _, Resolved a_result) in
  let m := start_of (router_of [provider_A; provider_B]) in
  ∃ m', route_loop w a_request [provider_A; provider_B] None m
          = (LoopReturned a_result, m') ∧
        state (self m') !! claude = Some fresh_state ∧
        state (self m') !! openai = Some fresh_state ∧
        calls m' = [ {| callee := provider_A; outcome := Resolved a_result |} ].
Proof.
  intros w m.
  destruct (success_returns_at_once w a_request provider_A [provider_B] None m
              fresh_state a_result)
    as (m' & Hrun & Hst & Hother & Hcalls & _);
    [reflexivity | simpl; lia | simpl; lia | by vm_compute | reflexivity |].
  exists m'. split; [exact Hrun|]. split; [exact Hst|].
  split; [|exact Hcalls].
  by rewrite (Hother openai).
Defined.

(** ** The local quota *)

Section Quota.
Context (world : World).

Lemma fresh_of_all windowStart arr :
  (∀ u, u ∈ arr → windowStart ≤ u) → fresh_of windowStart arr = arr.
Proof.
  intros Hall. unfold fresh_of. induction arr as [|u arr IH]; [done|].
  rewrite filter_cons_True by (apply Hall, list_elem_of_here).
  f_equal. apply IH. intros v Hv. by apply Hall, list_elem_of_further.
Qed.

Lemma consume_times_settings nm k m :
  localQuotaMax (self (snd (consume_times world nm k m))) = localQuotaMax (self m) ∧
  localQuotaWindowMs (self (snd (consume_times world nm k m)))
    = localQuotaWindowMs (self m).
Proof.
  revert m. induction k as [|k IH]; intros m; [done|].
  cbn [consume_times]. rewrite !bind_run. unfold ret at 1 2. cbn [snd].
  destruct (IH (snd (checkAndConsumeLocalQuota world nm m))) as [-> ->].
  rewrite run_checkAndConsumeLocalQuota. cbn zeta. by case_bool_decide.
Qed.


(** A candidate the quota refuses: it gets the rate-limit cooldown and the
    loop goes on without calling it. *)
Lemma route_loop_quota_refused req c rest lastErr m s :
  state (self m) !! name c = Some s →
  disabled_until_ms s ≤ now_at world (steps m) →
  cooldown_until_ms s ≤ now_at world (1 + steps m) →
  localQuotaMax (self m) ≤
    Z.of_nat (length (fresh_of
      (now_at world (2 + steps m) - localQuotaWindowMs (self m))
      (default [] (localQuota (self m) !! name c)))) →
  ∃ m', route_loop world req (c :: rest) lastErr m =
          route_loop world req rest lastErr m' ∧
        calls m' = calls m ∧
        state (self m') !! name c =
          Some {| cooldown_until_ms :=
                    Z.max (cooldown_until_ms s)
                          (now_at world (4 + steps m) + rateLimitCooldownMs (self m));
                  consecutive_failures := consecutive_failures s;
                  disabled_until_ms := disabled_until_ms s;
                  last_error := last_error s |} ∧
        (∀ n, n ≠ name c → state (self m') !! n = state (self m) !! n) ∧
        localQuota (self m') !! name c =
          Some (fresh_of
                  (now_at world (2 + steps m) - localQuotaWindowMs (self m))
                  (default [] (localQuota (self m) !! name c))).
Proof.
  intros Hs Hd Hc Hq. cbn [route_loop].
  rewrite bind_run, (run_skip_test world (name c) s m Hs).
  rewrite !bool_decide_eq_false_2 by (simpl in *; lia). cbn [fst snd].
  rewrite bind_run, run_checkAndConsumeLocalQuota. cbn zeta.
  cbn [tick self steps calls].
  rewrite bool_decide_eq_true_2 by (simpl in *; lia). cbn [fst snd negb].
  rewrite bind_run, run_getLocalQuotaState.
  rewrite bind_run. unfold get_self at 1 2. cbn [fst snd].
  rewrite bind_run, run_cooldown.
  cbn [tick self steps calls state with_localQuota]. rewrite Hs. cbn [snd].
  eexists. split; [reflexivity|].
  cbn [self state with_state calls localQuota rateLimitCooldownMs].
  split; [done|].
  split; [by rewrite lookup_insert_eq|].
  split; [intros n Hn; by rewrite lookup_insert_ne|].
  simpl. by rewrite lookup_insert_eq.
Qed.

End Quota.



(** ** The log of provider calls *)

Section CallLog.
Context (world : World) (req : Request).

Lemma cooldown_calls nm ms m : calls (snd (cooldown world nm ms m)) = calls m.
Proof. rewrite run_cooldown. by destruct (state (self m) !! nm). Qed.

Lemma disable_calls nm ms m : calls (snd (disable world nm ms m)) = calls m.
Proof. rewrite run_disable. by destruct (state (self m) !! nm). Qed.

Lemma markFailure_calls nm m : calls (snd (markFailure nm m)) = calls m.
Proof. rewrite run_markFailure. by destruct (state (self m) !! nm). Qed.

Lemma markSuccess_calls nm m : calls (snd (markSuccess nm m)) = calls m.
Proof. rewrite run_markSuccess. by destruct (state (self m) !! nm). Qed.

Lemma recordError_calls nm err m :
  calls (snd (recordError world nm err m)) = calls m.
Proof. rewrite run_recordError. by destruct (state (self m) !! nm). Qed.

Lemma penalised_calls nm mapped m m' :
  penalised world nm mapped m m' → calls m' = calls m.
Proof.
  destruct 1; by rewrite markFailure_calls, ?disable_calls, ?cooldown_calls.
Qed.

(** The log up to the call of an admitted candidate. *)
Lemma admitted_calls c m m1 m2 m3 o b :
  or_else (isDisabled world (name c)) (isInCooldown world (name c)) m = (b, m1) →
  checkAndConsumeLocalQuota world (name c) m1 = (true, m2) →
  call_provider world c req (tick m2) = (o, m3) →
  calls m3 = calls m ++ [ {| callee := c; outcome := o |} ].
Proof.
  intros Hskip Hq Hcall.
  pose proof (skip_test_state world (name c) m) as [_ H1].
  pose proof (checkAndConsumeLocalQuota_state world (name c) m1) as [_ H2].
  rewrite Hskip in H1. rewrite Hq in H2. simpl in H1, H2.
  unfold call_provider in Hcall. injection Hcall as <- <-. simpl.
  by rewrite H2, H1.
Qed.

Lemma loop_run_log candidates lastErr m res m' :
  loop_run world req candidates lastErr m res m' →
  ∃ l, calls m' = calls m ++ l ∧
       callee <$> l `sublist_of` candidates ∧
       log_ends res lastErr l.
Proof.
  induction 1 as
    [ lastErr m
    | c rest lastErr m m1 res m' Hskip _ IH
    | c rest lastErr m m1 m2 res m' Hskip Hq _ IH
    | c rest lastErr m m1 m2 m3 result Hskip Hq Hcall
    | c rest lastErr m m1 m2 m3 m4 err res m' Hskip Hq Hcall Hpen _ IH
    | c rest lastErr m m1 m2 m3 err Hskip Hq Hcall Hfatal ].
  - exists []. rewrite app_nil_r. split; [done|]. split; [done|]. by left.
  - destruct IH as (l & Hl & Hsub & Hend). exists l.
    pose proof (skip_test_state world (name c) m) as [_ H1].
    rewrite Hskip in H1. simpl in H1. rewrite Hl, H1.
    split; [done|]. split; [by apply sublist_cons|done].
  - destruct IH as (l & Hl & Hsub & Hend). exists l.
    pose proof (skip_test_state world (name c) m) as [_ H1].
    pose proof (checkAndConsumeLocalQuota_state world (name c) m1) as [_ H2].
    rewrite Hskip in H1. rewrite Hq in H2. simpl in H1, H2.
    rewrite Hl, cooldown_calls. simpl. rewrite H2, H1.
    split; [done|]. split; [by apply sublist_cons|done].
  - exists [ {| callee := c; outcome := Resolved result |} ].
    rewrite markSuccess_calls.
    split; [by eapply admitted_calls|].
    split; [apply sublist_skip, sublist_nil_l|]. by exists c.
  - destruct IH as (l & Hl & Hsub & Hend).
    exists ({| callee := c; outcome := Rejected err |} :: l).
    split.
    { rewrite Hl, (penalised_calls _ _ _ _ Hpen), recordError_calls.
      rewrite (admitted_calls c m m1 m2 m3 _ _ Hskip Hq Hcall).
      by rewrite <-app_assoc. }
    split; [by apply sublist_skip|].
    destruct res as [result|mapped|lastErr']; simpl in *.
    + destruct Hend as (c' & Hlast). exists c'.
      rewrite last_cons, Hlast. done.
    + destruct Hend as (c' & e & Hlast & ->). exists c', e.
      rewrite last_cons, Hlast. done.
    + right. destruct Hend as [[-> ->]|(c' & e & Hlast & ->)].
      * by exists c, err.
      * exists c', e. by rewrite last_cons, Hlast.
  - exists [ {| callee := c; outcome := Rejected err |} ].
    rewrite recordError_calls.
    split; [by eapply admitted_calls|].
    split; [apply sublist_skip, sublist_nil_l|]. by exists c, err.
Qed.

End CallLog.

(** C9. The provider calls one [analyzeData] adds to the log are, in order,
    some of the ranked candidates, each position of the candidate list being
    used at most once; so there are no more calls than registered providers,
    and when the registered providers (or their names) are pairwise distinct
    no provider (or name) is called twice. *)
Theorem one_call_per_candidate (world : World) (req : Request) (m : Machine) :
  ∃ l, calls (snd (analyzeData world req m)) = calls m ++ l ∧
       callee <$> l `sublist_of`
         rankProviders (AI_PROVIDER_STRATEGY world) (self m)
           (estimateTokens
              (buildAnalysisPrompt world (structuredData req) (notes req))) ∧
       (length l ≤ length (providers (self m)))%nat ∧
       (NoDup (providers (self m)) → NoDup (callee <$> l)) ∧
       (NoDup (name <$> providers (self m)) → NoDup (name <$> (callee <$> l))).
Proof.
  rewrite run_analyzeData. cbn zeta. cbn [snd].
  match goal with |- context [route_loop world req ?cs None m] =>
    destruct (loop_run_log world req cs None m _ _
                (route_loop_runs world req cs None m)) as (l & Hl & Hsub & _);
    pose proof (rankProviders_perm (AI_PROVIDER_STRATEGY world) (self m)
      (estimateTokens (buildAnalysisPrompt world (structuredData req) (notes req))))
      as Hperm
  end.
  exists l. split; [done|]. split; [done|]. split; [|split].
  - apply sublist_length in Hsub. rewrite length_fmap in Hsub.
    by rewrite <-(Permutation_length Hperm).
  - intros Hnd. eapply sublist_NoDup; [|exact Hsub]. by rewrite Hperm.
  - intros Hnd. eapply sublist_NoDup; [|by apply fmap_sublist].
    by rewrite Hperm.
Qed.

(** Two distinct providers, the cheaper one failing with a rate limit, the
    other answering: each is called once. *)
Lemma one_call_per_candidate_witness :
  let w := world_of 1000 (λ p, if decide (p = 1%nat) then Rejected error_429
                               else Resolved a_result) in
  let m := start_of (router_of [provider_A; provider_B]) in
  NoDup (providers (self m)) ∧
  calls (snd (analyzeData w a_request m)) =
    [ {| callee := provider_B; outcome := Rejected error_429 |};
      {| callee := provider_A; outcome := Resolved a_result |} ] ∧
  ∃ l, calls (snd (analyzeData w a_request m)) = calls m ++ l ∧
       NoDup (callee <$> l) ∧ (length l ≤ 2)%nat.
Proof.
  intros w m.
  assert (NoDup (providers (self m))) as Hnd.
  { apply NoDup_ListNoDup. repeat constructor; simpl; intuition discriminate. }
  split; [exact Hnd|]. split; [by vm_compute|].
  destruct (one_call_per_candidate w a_request m) as (l & Hl & _ & Hlen & Hdup & _).
  exists l. split; [exact Hl|]. split; [by apply Hdup | exact Hlen].
Defined.

(** ** A failed call *)

Section FailedCall.
Context (world : World) (req : Request).

(** After a failed call the error is recorded, and then either the error
    is fatal and thrown with nothing else changed, or the provider is
    penalised and the loop goes on with this error as the last one. *)
Lemma route_loop_rejected c rest lastErr m s err :
  state (self m) !! name c = Some s →
  disabled_until_ms s ≤ now_at world (steps m) →
  cooldown_until_ms s ≤ now_at world (1 + steps m) →
  Z.of_nat (length (fresh_of
              (now_at world (2 + steps m) - localQuotaWindowMs (self m))
              (default [] (localQuota (self m) !! name c))))
    < localQuotaMax (self m) →
  analyze_at world (provider c) req (4 + steps m) = Rejected err →
  let mapped := toProviderError (name c) err in
  let m5 := after_record world c err s m in
  (fatal mapped ∧
   route_loop world req (c :: rest) lastErr m = (LoopThrew mapped, m5)) ∨
  (∃ m6, penalised world (name c) mapped m5 m6 ∧
         route_loop world req (c :: rest) lastErr m =
           route_loop world req rest (Some err) m6).
Proof.
  intros Hs Hd Hc Hq Hcall mapped m5. cbn [route_loop].
  rewrite bind_run, (run_skip_test world (name c) s m Hs).
  rewrite !bool_decide_eq_false_2 by (simpl in *; lia). cbn [fst snd].
  rewrite bind_run, run_checkAndConsumeLocalQuota. cbn zeta.
  cbn [tick self steps calls].
  rewrite bool_decide_eq_false_2 by (simpl in *; lia). cbn [fst snd negb].
  rewrite bind_run, run_getLocalQuotaState.
  rewrite bind_run, run_call_provider. cbn [fst snd tick self steps calls].
  simpl in Hcall. rewrite Hcall.
  rewrite bind_run, run_recordError. cbn [self state with_localQuota steps calls].
  rewrite Hs. cbn [snd]. rewrite bind_run. unfold get_self at 1 2. cbn [fst snd].
  fold mapped.
  match goal with |- context [route_loop world req rest (Some err)] =>
    match goal with |- context [?f ?mm = (LoopThrew mapped, m5)] =>
      change mm with m5
    end
  end.
  destruct (status_is (err_status mapped) 401 || status_is (err_status mapped) 403)
    eqn:Hauth.
  { right. eexists. split; [by apply penalised_auth|].
    by rewrite !bind_run. }
  destruct (status_is (err_status mapped) 402) eqn:Hpay.
  { right. eexists. split; [by apply penalised_payment|].
    by rewrite !bind_run. }
  destruct (status_is (err_status mapped) 429) eqn:Hrate.
  { right. eexists. split; [by apply penalised_rate_limit|].
    by rewrite !bind_run. }
  destruct (err_retryable mapped) eqn:Hretry.
  { right. eexists. split; [by apply penalised_retryable|].
    by rewrite !bind_run. }
  left. by repeat split.
Qed.

(** What a penalty changes in the provider's state: one deadline, by
    maximum, and the failure counter, by one. *)
Lemma penalised_state nm mapped m m' s :
  penalised world nm mapped m m' →
  state (self m) !! nm = Some s →
  ∃ cd dis,
    state (self m') !! nm =
      Some {| cooldown_until_ms := cd;
              consecutive_failures := consecutive_failures s + 1;
              disabled_until_ms := dis;
              last_error := last_error s |} ∧
    cooldown_until_ms s ≤ cd ∧ disabled_until_ms s ≤ dis ∧
    (∀ n, n ≠ nm → state (self m') !! n = state (self m) !! n).
Proof.
  intros Hpen Hs.
  destruct Hpen;
    rewrite run_markFailure, ?run_disable, ?run_cooldown, Hs;
    cbn [snd self state with_state]; rewrite lookup_insert_eq;
    cbn [snd self state with_state];
    eexists _, _;
    (split; [by rewrite lookup_insert_eq|]);
    cbn [cooldown_until_ms disabled_until_ms];
    (split; [lia|]); (split; [lia|]);
    intros n Hn; by rewrite !lookup_insert_ne.
Qed.

End FailedCall.

(** ** When no candidate is left *)

(** C1, as worded, fails: with one provider that fails with status 401 the
    loop runs out of candidates, and what [analyzeData] throws is that
    provider's own error, not the "All AI providers failed" error. *)
Lemma exhausted_rethrows_provider_error :
  let w := world_of 1000 (λ _, Rejected error_401) in
  let m := start_of (router_of [provider_A]) in
  fst (route_loop w a_request [provider_A] None m) = LoopDone (Some error_401) ∧
  fst (analyzeData w a_request m) = ThrewLast error_401 ∧
  fst (analyzeData w a_request m) ≠ ThrewAllFailed.
Proof. by vm_compute. Qed.

(** C1, amended. When the loop runs out of candidates, [lastErr] is the
    error of the last provider call of the request, or undefined when every
    candidate was skipped; [analyzeData] then throws that error itself when it
    is an [Error], and the "All AI providers failed" error, which carries
    nothing, when no call was made or the last failure was not an [Error].
    In particular, with a single registered provider whose call fails with a
    mapped status 401, the provider's disable deadline becomes the maximum
    of what it was and the clock reading plus [authDisableMs], its failure
    counter goes up by one, and the error thrown is the provider's. *)
Theorem exhausted_rethrows_last_error (world : World) (req : Request) (m : Machine) :
  let candidates :=
    rankProviders (AI_PROVIDER_STRATEGY world) (self m)
      (estimateTokens (buildAnalysisPrompt world (structuredData req) (notes req))) in
  let run := route_loop world req candidates None m in
  (∃ l, calls (snd run) = calls m ++ l ∧
        ∀ lastErr, fst run = LoopDone lastErr →
          lastErr = last_failure l ∧
          (l = [] ∨ ∃ c e, last l = Some {| callee := c; outcome := Rejected e |}) ∧
          analyzeData world req m =
            (match lastErr with
             | Some e => if instanceof_Error e then ThrewLast e else ThrewAllFailed
             | None => ThrewAllFailed
             end, snd run)) ∧
  (∀ c s err,
     providers (self m) = [c] →
     state (self m) !! name c = Some s →
     disabled_until_ms s ≤ now_at world (steps m) →
     cooldown_until_ms s ≤ now_at world (1 + steps m) →
     Z.of_nat (length (fresh_of
                 (now_at world (2 + steps m) - localQuotaWindowMs (self m))
                 (default [] (localQuota (self m) !! name c))))
       < localQuotaMax (self m) →
     analyze_at world (provider c) req (4 + steps m) = Rejected err →
     err_status (toProviderError (name c) err) = Some 401 →
     ∃ m', analyzeData world req m =
             (if instanceof_Error err then ThrewLast err else ThrewAllFailed, m') ∧
           calls m' = calls m ++ [ {| callee := c; outcome := Rejected err |} ] ∧
           disabled_until_ms <$> state (self m') !! name c =
             Some (Z.max (disabled_until_ms s)
                         (now_at world (6 + steps m) + authDisableMs (self m))) ∧
           consecutive_failures <$> state (self m') !! name c =
             Some (consecutive_failures s + 1)).
Proof.
  intros candidates run. split.
  - destruct (loop_run_log world req candidates None m _ _
                (route_loop_runs world req candidates None m))
      as (l & Hl & _ & Hend).
    exists l. split; [exact Hl|].
    intros lastErr Hdone. fold run in Hend. rewrite Hdone in Hend.
    rewrite run_analyzeData. cbn zeta. fold candidates. fold run. rewrite Hdone.
    unfold last_failure.
    destruct Hend as [[-> ->]|(c & e & Hlast & ->)].
    + split; [done|]. split; [by left|done].
    + rewrite Hlast. split; [done|]. split; [right; by exists c, e|done].
  - intros c s err Hps Hs Hd Hc Hq Hcall Hstatus.
    assert (candidates = [c]) as Hcands.
    { apply Permutation_singleton_r. rewrite <-Hps. apply rankProviders_perm. }
    rewrite run_analyzeData. cbn zeta. fold candidates. rewrite Hcands.
    assert (status_is (err_status (toProviderError (name c) err)) 401 = true) as H401.
    { unfold status_is. by rewrite Hstatus. }
    destruct (route_loop_rejected world req c [] None m s err Hs Hd Hc Hq Hcall)
      as [[(Hauth & _) _]|(m6 & Hpen & ->)].
    { by rewrite H401 in Hauth. }
    inversion Hpen as [Hauth Hm6|Hauth|Hauth|Hauth]; try (by rewrite H401 in Hauth).
    cbn [route_loop]. unfold ret. cbn [fst snd]. unfold after_loop.
    eexists. split; [reflexivity|].
    rewrite markFailure_calls, disable_calls.
    split; [done|].
    rewrite run_markFailure, run_disable.
    assert (state (self (after_record world c err s m)) !! name c =
            Some (recorded s (toProviderError (name c) err)
                    (now_at world (5 + steps m)))) as ->.
    { unfold after_record. simpl. by rewrite lookup_insert_eq. }
    cbn [snd self state with_state]. rewrite lookup_insert_eq.
    cbn [snd self state with_state]. rewrite lookup_insert_eq.
    done.
Qed.

(** The single provider that answers 401, at time 1000 with the default
    settings: disabled for a day, and its own error thrown. *)
Lemma exhausted_rethrows_last_error_witness :
  let w := world_of 1000 (λ _, Rejected error_401) in
  let m := start_of (router_of [provider_A]) in
  ∃ m', analyzeData w a_request m = (ThrewLast error_401, m') ∧
        disabled_until_ms <$> state (self m') !! claude = Some 86401006 ∧
        consecutive_failures <$> state (self m') !! claude = Some 1.
Proof.
  intros w m.
  destruct (exhausted_rethrows_last_error w a_request m) as [_ Hone].
  destruct (Hone provider_A fresh_state error_401)
    as (m' & Hrun & _ & Hdis & Hfail);
    [reflexivity | reflexivity | by vm_compute | by vm_compute | by vm_compute
    | reflexivity | reflexivity |].
  exists m'. split; [exact Hrun|]. split; [exact Hdis | exact Hfail].
Defined.

(** ** Bookkeeping of failures *)

(** Every failed call is classified and recorded; the failure counter goes
    up by one in the four branches that fail over, and stays as it is in the
    branch that throws. *)
Lemma failed_call_bookkeeping world req c rest lastErr m s err :
  state (self m) !! name c = Some s →
  disabled_until_ms s ≤ now_at world (steps m) →
  cooldown_until_ms s ≤ now_at world (1 + steps m) →
  Z.of_nat (length (fresh_of
              (now_at world (2 + steps m) - localQuotaWindowMs (self m))
              (default [] (localQuota (self m) !! name c))))
    < localQuotaMax (self m) →
  analyze_at world (provider c) req (4 + steps m) = Rejected err →
  let mapped := toProviderError (name c) err in
  let noted := Some {| le_status := err_status mapped;
                       le_message := err_message mapped;
                       le_at := now_at world (5 + steps m) |} in
  (fatal mapped ∧
   ∃ m', route_loop world req (c :: rest) lastErr m = (LoopThrew mapped, m') ∧
         last_error <$> state (self m') !! name c = Some noted ∧
         consecutive_failures <$> state (self m') !! name c
           = Some (consecutive_failures s)) ∨
  (¬ fatal mapped ∧
   ∃ m', route_loop world req (c :: rest) lastErr m =
           route_loop world req rest (Some err) m' ∧
         last_error <$> state (self m') !! name c = Some noted ∧
         consecutive_failures <$> state (self m') !! name c
           = Some (consecutive_failures s + 1)).
Proof.
  intros Hs Hd Hc Hq Hcall mapped noted.
  assert (state (self (after_record world c err s m)) !! name c =
          Some (recorded s mapped (now_at world (5 + steps m)))) as Hrec.
  { unfold after_record. simpl. by rewrite lookup_insert_eq. }
  destruct (route_loop_rejected world req c rest lastErr m s err Hs Hd Hc Hq Hcall)
    as [[Hfatal ->]|(m6 & Hpen & ->)].
  - left. split; [done|]. eexists. split; [reflexivity|]. by rewrite Hrec.
  - right. split.
    + intros (Hauth & Hpay & Hrate & Hretry).
      fold mapped in Hpen. destruct Hpen; congruence.
    + destruct (penalised_state world (name c) _ _ _ _ Hpen Hrec)
        as (cd & dis & Hst & _).
      exists m6. split; [done|]. by rewrite Hst.
Qed.

(** C8 at the failing input. The only provider is Claude and its key is not
    configured, so its call throws an [AIProviderError] with no status and
    [retryable] false.  The router records the error as the provider's
    [last_error] and throws it, and the provider's [consecutive_failures] is
    still 0: [markFailure] is called in the four branches that fail over and
    not before [throw mapped]. *)
Theorem fatal_error_not_counted :
  let w := world_of 1000 (λ _, Rejected error_missing_key) in
  let m := start_of (router_of [provider_A]) in
  let out := analyzeData w a_request m in
  fst out = ThrewMapped (new_AIProviderError claude "CLAUDE_API_KEY is missing"
                           None (Some false)) ∧
  calls (snd out) = [ {| callee := provider_A; outcome := Rejected error_missing_key |} ] ∧
  last_error <$> state (self (snd out)) !! claude =
    Some (Some {| le_status := None;
                  le_message := "CLAUDE_API_KEY is missing";
                  le_at := 1005 |}) ∧
  consecutive_failures <$> state (self (snd out)) !! claude = Some 0.
Proof. by vm_compute. Qed.

(** * Further properties of the code *)

(** ** The token estimate *)

(** X1. The estimate is 0 for the empty text only; for any other text it is
    the length divided by four, rounded up: at least 1, four times the
    estimate is at least the length and less than the length plus four.  A
    longer text never has a smaller estimate. *)
Theorem estimateTokens_bounds (text longer : string) :
  (estimateTokens text = 0 ↔ text = ""%string) ∧
  (text ≠ ""%string →
   1 ≤ estimateTokens text ∧
   Z.of_nat (String.length text) ≤ 4 * estimateTokens text
     < Z.of_nat (String.length text) + 4) ∧
  ((String.length text ≤ String.length longer)%nat →
   estimateTokens text ≤ estimateTokens longer).
Proof.
  assert (Hlen : ∀ t : string, t ≠ ""%string → (1 ≤ String.length t)%nat).
  { intros [|a t] Ht; [done|simpl; lia]. }
  assert (Hest : ∀ t : string, t ≠ ""%string →
            estimateTokens t = (Z.of_nat (String.length t) + 3) / 4 ∧
            1 ≤ (Z.of_nat (String.length t) + 3) / 4).
  { intros t Ht. unfold estimateTokens. rewrite bool_decide_eq_false_2 by done.
    pose proof (Hlen t Ht).
    assert (1 ≤ (Z.of_nat (String.length t) + 3) / 4)
      by (apply Z.div_le_lower_bound; lia).
    split; lia. }
  split; [|split].
  - split.
    + intros Hzero. destruct (decide (text = ""%string)) as [|Hne]; [done|].
      destruct (Hest text Hne). lia.
    + intros ->. reflexivity.
  - intros Hne. destruct (Hest text Hne) as [-> Hone]. split; [done|].
    pose proof (Z.div_mod (Z.of_nat (String.length text) + 3) 4).
    pose proof (Z.mod_pos_bound (Z.of_nat (String.length text) + 3) 4).
    lia.
  - intros Hle. destruct (decide (text = ""%string)) as [->|Hne].
    + unfold estimateTokens at 1. simpl.
      destruct (decide (longer = ""%string)) as [->|Hne']; [done|].
      destruct (Hest longer Hne'). lia.
    + assert (longer ≠ ""%string) as Hne'.
      { intros ->. pose proof (Hlen text Hne). simpl in Hle. lia. }
      destruct (Hest text Hne) as [-> _]. destruct (Hest longer Hne') as [-> _].
      apply Z.div_le_mono; lia.
Qed.

(** A text of nine characters is estimated at three tokens. *)
Lemma estimateTokens_bounds_witness :
  1 ≤ estimateTokens "123456789" ∧
  9 ≤ 4 * estimateTokens "123456789" < 13 ∧
  estimateTokens "1234" ≤ estimateTokens "123456789".
Proof.
  destruct (estimateTokens_bounds "123456789" "123456789") as (_ & Hb & _).
  destruct (estimateTokens_bounds "1234" "123456789") as (_ & _ & Hm).
  split; [by apply Hb|]. split; [by apply Hb|].
  apply Hm. simpl. lia.
Defined.

(** ** Error mapping, continued *)

Lemma fold_case_idemp c : fold_case (fold_case c) = fold_case c.
Proof. by destruct c as [[] [] [] [] [] [] [] []]. Qed.

Lemma starts_with_i_lower pat s :
  starts_with_i pat (toLowerCase s) = starts_with_i pat s.
Proof.
  revert s. induction pat as [|a pat IH]; intros [|b s]; simpl; try done.
  by rewrite fold_case_idemp, IH.
Qed.

Lemma occurs_i_lower pat s : occurs_i pat (toLowerCase s) = occurs_i pat s.
Proof.
  induction s as [|b s IH].
  - done.
  - change (toLowerCase (String b s)) with (String (fold_case b) (toLowerCase s)).
    cbn [occurs_i]. rewrite IH. f_equal.
    apply (starts_with_i_lower pat (String b s)).
Qed.

Lemma regex_test_i_lower alternatives s :
  regex_test_i alternatives (toLowerCase s) = regex_test_i alternatives s.
Proof.
  unfold regex_test_i. induction alternatives as [|pat ps IH]; simpl; [done|].
  by rewrite occurs_i_lower, IH.
Qed.

(** X2. Classification of an unstructured error does not depend on the
    letter case of its message: two messages that are equal up to the case of
    their ASCII letters get the same status and the same retryable flag. *)
Theorem toProviderError_ignores_case (nm : ProviderName) (msg1 msg2 : string) :
  toLowerCase msg1 = toLowerCase msg2 →
  err_status (toProviderError nm (ThrownError msg1)) =
    err_status (toProviderError nm (ThrownError msg2)) ∧
  err_retryable (toProviderError nm (ThrownError msg1)) =
    err_retryable (toProviderError nm (ThrownError msg2)) ∧
  err_status (toProviderError nm (ThrownValue msg1)) =
    err_status (toProviderError nm (ThrownValue msg2)) ∧
  err_retryable (toProviderError nm (ThrownValue msg1)) =
    err_retryable (toProviderError nm (ThrownValue msg2)).
Proof.
  intros Hcase.
  assert (looksLikeRateLimit msg1 = looksLikeRateLimit msg2) as Hr.
  { unfold looksLikeRateLimit.
    by rewrite <-(regex_test_i_lower _ msg1), Hcase, regex_test_i_lower. }
  assert (looksLikeAuth msg1 = looksLikeAuth msg2) as Ha.
  { unfold looksLikeAuth.
    by rewrite <-(regex_test_i_lower _ msg1), Hcase, regex_test_i_lower. }
  assert (looksLikePayment msg1 = looksLikePayment msg2) as Hp.
  { unfold looksLikePayment.
    by rewrite <-(regex_test_i_lower _ msg1), Hcase, regex_test_i_lower. }
  simpl. by rewrite Hr, Ha, Hp.
Qed.

(** "RATE LIMIT exceeded" and "Rate Limit Exceeded". *)
Lemma toProviderError_ignores_case_witness :
  err_status (toProviderError claude (ThrownError "RATE LIMIT exceeded")) =
    err_status (toProviderError claude (ThrownError "Rate Limit Exceeded")) ∧
  err_status (toProviderError claude (ThrownError "RATE LIMIT exceeded")) = Some 429.
Proof.
  split; [|reflexivity].
  by apply (toProviderError_ignores_case claude "RATE LIMIT exceeded"
              "Rate Limit Exceeded").
Defined.

(** An error the router classified from its message is never fatal: a
    payment or authorization indicator gives it a status that fails over,
    and without one it is retryable. *)
Lemma unstructured_not_fatal nm err :
  unstructured err → ¬ fatal (toProviderError nm err).
Proof.
  intros Hplain (Hauth & Hpay & Hrate & Hretry).
  assert (He : toProviderError nm err = new_AIProviderError nm (message_of err)
                 (if looksLikeRateLimit (message_of err) then Some 429
                  else if looksLikeAuth (message_of err) then Some 401
                  else if looksLikePayment (message_of err) then Some 402
                  else None)
                 (Some (if looksLikeAuth (message_of err)
                           || looksLikePayment (message_of err)
                        then false else true))).
  { by destruct err. }
  rewrite He in Hauth, Hpay, Hrate, Hretry. simpl in *.
  destruct (looksLikeRateLimit (message_of err)); [done|].
  destruct (looksLikeAuth (message_of err)); [done|].
  destruct (looksLikePayment (message_of err)); done.
Qed.

Lemma loop_run_threw world req candidates lastErr m res m' :
  loop_run world req candidates lastErr m res m' →
  ∀ mapped, res = LoopThrew mapped → fatal mapped.
Proof.
  induction 1; intros mapped Hres; try discriminate; eauto.
  by injection Hres as <-.
Qed.

(** X3. [analyzeData] throws a mapped error only for a failure that is
    none of the failover classes, and such a failure is always an
    [AIProviderError] the provider itself threw, with [retryable] false and
    a status other than 401, 403, 402 and 429: the error thrown is the one of
    the last call logged, unchanged.  A failure classified from its message
    never stops the failover. *)
Theorem only_structured_errors_abort (world : World) (req : Request) (m : Machine)
    (mapped : AIProviderError) :
  fst (analyzeData world req m) = ThrewMapped mapped →
  fatal mapped ∧
  err_retryable mapped = false ∧
  (err_status mapped ∉ [Some 401; Some 403; Some 402; Some 429]) ∧
  (∃ l c, calls (snd (analyzeData world req m)) = calls m ++ l ∧
          last l = Some {| callee := c;
                           outcome := Rejected (ThrownProviderError mapped) |}).
Proof.
  rewrite run_analyzeData. cbn zeta. cbn [fst snd].
  match goal with |- context [route_loop world req ?cs None m] =>
    pose proof (route_loop_runs world req cs None m) as Hrun;
    destruct (loop_run_log world req cs None m _ _ Hrun) as (l & Hl & _ & Hend);
    pose proof (loop_run_threw world req cs None m _ _ Hrun) as Hfatal;
    destruct (fst (route_loop world req cs None m)) as [result|mapped'|lastErr]
  end.
  - discriminate.
  - intros [= ->]. specialize (Hfatal mapped eq_refl).
    split; [exact Hfatal|].
    destruct Hfatal as (Hauth & Hpay & Hrate & Hretry).
    split; [exact Hretry|]. split.
    + unfold status_is in *. apply orb_false_elim in Hauth as [H401 H403].
      rewrite !elem_of_cons, elem_of_nil.
      intros [?|[?|[?|[?|[]]]]];
        [rewrite bool_decide_eq_true_2 in H401 by done
        |rewrite bool_decide_eq_true_2 in H403 by done
        |rewrite bool_decide_eq_true_2 in Hpay by done
        |rewrite bool_decide_eq_true_2 in Hrate by done]; discriminate.
    + destruct Hend as (c & e & Hlast & Hmapped).
      exists l, c. split; [exact Hl|].
      destruct e as [e0| |].
      * simpl in Hmapped. by subst e0.
      * exfalso. apply (unstructured_not_fatal (name c) (ThrownError message) I).
        rewrite <-Hmapped. by repeat split.
      * exfalso. apply (unstructured_not_fatal (name c) (ThrownValue as_string) I).
        rewrite <-Hmapped. by repeat split.
  - unfold after_loop. destruct lastErr as [e|]; [destruct (instanceof_Error e)|];
      discriminate.
Qed.

(** The provider whose key is missing: its error is thrown as it is. *)
Lemma only_structured_errors_abort_witness :
  let w := world_of 1000 (λ _, Rejected error_missing_key) in
  let m := start_of (router_of [provider_A]) in
  fst (analyzeData w a_request m) =
    ThrewMapped (new_AIProviderError claude "CLAUDE_API_KEY is missing" None (Some false)) ∧
  fatal (new_AIProviderError claude "CLAUDE_API_KEY is missing" None (Some false)).
Proof.
  intros w m.
  assert (fst (analyzeData w a_request m) =
          ThrewMapped (new_AIProviderError claude "CLAUDE_API_KEY is missing"
                         None (Some false))) as Hrun by (by vm_compute).
  split; [exact Hrun|].
  by destruct (only_structured_errors_abort w a_request m _ Hrun) as [Hfatal _].
Defined.

(** ** The branches of the [catch] block *)

Section CatchBlock.
Context (world : World) (req : Request).

Lemma after_record_facts c err s m :
  let m5 := after_record world c err s m in
  state (self m5) !! name c =
    Some (recorded s (toProviderError (name c) err) (now_at world (5 + steps m))) ∧
  (∀ n, n ≠ name c → state (self m5) !! n = state (self m) !! n) ∧
  localQuota (self m5) !! name c =
    Some (fresh_of (now_at world (2 + steps m) - localQuotaWindowMs (self m))
            (default [] (localQuota (self m) !! name c))
          ++ [now_at world (2 + steps m)]).
Proof.
  unfold after_record. simpl.
  split; [by rewrite lookup_insert_eq|].
  split; [intros n Hn; by rewrite lookup_insert_ne|].
  by rewrite lookup_insert_eq.
Qed.

Lemma disable_markFailure_facts nm ms m s :
  state (self m) !! nm = Some s →
  let m' := snd (markFailure nm (snd (disable world nm ms m))) in
  state (self m') !! nm =
    Some {| cooldown_until_ms := cooldown_until_ms s;
            consecutive_failures := consecutive_failures s + 1;
            disabled_until_ms :=
              Z.max (disabled_until_ms s) (now_at world (steps m) + ms);
            last_error := last_error s |} ∧
  (∀ n, n ≠ nm → state (self m') !! n = state (self m) !! n) ∧
  localQuota (self m') = localQuota (self m) ∧
  calls m' = calls m.
Proof.
  intros Hs. cbn zeta. rewrite run_markFailure, run_disable, Hs.
  cbn [snd self state with_state]. rewrite lookup_insert_eq.
  cbn [snd self state with_state localQuota calls].
  split; [by rewrite lookup_insert_eq|].
  split; [intros n Hn; by rewrite !lookup_insert_ne|done].
Qed.

Lemma cooldown_markFailure_facts nm ms m s :
  state (self m) !! nm = Some s →
  let m' := snd (markFailure nm (snd (cooldown world nm ms m))) in
  state (self m') !! nm =
    Some {| cooldown_until_ms :=
              Z.max (cooldown_until_ms s) (now_at world (steps m) + ms);
            consecutive_failures := consecutive_failures s + 1;
            disabled_until_ms := disabled_until_ms s;
            last_error := last_error s |} ∧
  (∀ n, n ≠ nm → state (self m') !! n = state (self m) !! n) ∧
  localQuota (self m') = localQuota (self m) ∧
  calls m' = calls m.
Proof.
  intros Hs. cbn zeta. rewrite run_markFailure, run_cooldown, Hs.
  cbn [snd self state with_state]. rewrite lookup_insert_eq.
  cbn [snd self state with_state localQuota calls].
  split; [by rewrite lookup_insert_eq|].
  split; [intros n Hn; by rewrite !lookup_insert_ne|done].
Qed.

End CatchBlock.

(** X4. A failed call whose mapped error is none of the failover classes
    ends the loop there: the mapped error is thrown, the remaining candidates
    are not tried, the one call is logged, the provider's [last_error] is the
    only field of its health state that changed, and the health state of
    every other provider is what it was. *)
Theorem fatal_error_aborts (world : World) (req : Request)
    (c : RoutedProvider) (rest : list RoutedProvider) (lastErr : option Thrown)
    (m : Machine) (s : ProviderState) (err : Thrown) :
  state (self m) !! name c = Some s →
  disabled_until_ms s ≤ now_at world (steps m) →
  cooldown_until_ms s ≤ now_at world (1 + steps m) →
  Z.of_nat (length (fresh_of
              (now_at world (2 + steps m) - localQuotaWindowMs (self m))
              (default [] (localQuota (self m) !! name c))))
    < localQuotaMax (self m) →
  analyze_at world (provider c) req (4 + steps m) = Rejected err →
  fatal (toProviderError (name c) err) →
  ∃ m', route_loop world req (c :: rest) lastErr m =
          (LoopThrew (toProviderError (name c) err), m') ∧
        calls m' = calls m ++ [ {| callee := c; outcome := Rejected err |} ] ∧
        state (self m') !! name c =
          Some {| cooldown_until_ms := cooldown_until_ms s;
                  consecutive_failures := consecutive_failures s;
                  disabled_until_ms := disabled_until_ms s;
                  last_error :=
                    Some {| le_status := err_status (toProviderError (name c) err);
                            le_message := err_message (toProviderError (name c) err);
                            le_at := now_at world (5 + steps m) |} |} ∧
        (∀ n, n ≠ name c → state (self m') !! n = state (self m) !! n).
Proof.
  intros Hs Hd Hc Hq Hcall (Hauth & Hpay & Hrate & Hretry).
  destruct (after_record_facts world c err s m) as (Hrec & Hframe & _).
  destruct (route_loop_rejected world req c rest lastErr m s err Hs Hd Hc Hq Hcall)
    as [[_ ->]|(m6 & Hpen & _)].
  - eexists. split; [reflexivity|]. split; [done|]. split; [exact Hrec|exact Hframe].
  - exfalso. destruct Hpen; congruence.
Qed.

(** A provider that answers 404, which its service reports as not retryable,
    is the first of two candidates: the second is never called. *)
Lemma fatal_error_aborts_witness :
  let e404 := ThrownProviderError
                (new_AIProviderError claude "Claude error: model not found"
                   (Some 404) (Some false)) in
  let w := world_of 1000 (λ p, if decide (p = 0%nat) then Rejected e404
                               else Resolved a_result) in
  let m := start_of (router_of [provider_A; provider_B]) in
  ∃ m', route_loop w a_request [provider_A; provider_B] None m =
          (LoopThrew (new_AIProviderError claude "Claude error: model not found"
                        (Some 404) (Some false)), m') ∧
        calls m' = [ {| callee := provider_A; outcome := Rejected e404 |} ] ∧
        state (self m') !! openai = Some fresh_state.
Proof.
  intros e404 w m.
  destruct (fatal_error_aborts w a_request provider_A [provider_B] None m
              fresh_state e404)
    as (m' & Hrun & Hcalls & _ & Hframe);
    [reflexivity | by vm_compute | by vm_compute | by vm_compute | reflexivity
    | by vm_compute |].
  exists m'. split; [exact Hrun|]. split; [exact Hcalls|].
  by rewrite (Hframe openai).
Defined.

(** X5. A failed call that fails over is penalised by the class of its
    mapped error, the loop going on with the remaining candidates and this
    error as the last one: status 401 or 403 moves the disable deadline to
    the maximum of what it was and the clock reading plus [authDisableMs];
    status 402 does the same with [paymentDisableMs]; status 429 moves the
    cooldown deadline likewise with [rateLimitCooldownMs], also when the
    error says it is not retryable; any other retryable error moves it with
    [errorCooldownMs].  In each case the other deadline stays, the error is
    recorded, the failure counter goes up by one, the attempt has used a quota
    slot, and no other provider's health state changes. *)
Theorem failover_penalties (world : World) (req : Request)
    (c : RoutedProvider) (rest : list RoutedProvider) (lastErr : option Thrown)
    (m : Machine) (s : ProviderState) (err : Thrown) :
  state (self m) !! name c = Some s →
  disabled_until_ms s ≤ now_at world (steps m) →
  cooldown_until_ms s ≤ now_at world (1 + steps m) →
  Z.of_nat (length (fresh_of
              (now_at world (2 + steps m) - localQuotaWindowMs (self m))
              (default [] (localQuota (self m) !! name c))))
    < localQuotaMax (self m) →
  analyze_at world (provider c) req (4 + steps m) = Rejected err →
  let mapped := toProviderError (name c) err in
  let now := now_at world (6 + steps m) in
  let goes_on (cooldown_until disabled_until : Z) : Prop :=
    ∃ m', route_loop world req (c :: rest) lastErr m =
            route_loop world req rest (Some err) m' ∧
          calls m' = calls m ++ [ {| callee := c; outcome := Rejected err |} ] ∧
          state (self m') !! name c =
            Some {| cooldown_until_ms := cooldown_until;
                    consecutive_failures := consecutive_failures s + 1;
                    disabled_until_ms := disabled_until;
                    last_error :=
                      Some {| le_status := err_status mapped;
                              le_message := err_message mapped;
                              le_at := now_at world (5 + steps m) |} |} ∧
          (∀ n, n ≠ name c → state (self m') !! n = state (self m) !! n) ∧
          localQuota (self m') !! name c =
            Some (fresh_of (now_at world (2 + steps m) - localQuotaWindowMs (self m))
                    (default [] (localQuota (self m) !! name c))
                  ++ [now_at world (2 + steps m)]) in
  (err_status mapped = Some 401 ∨ err_status mapped = Some 403 →
   goes_on (cooldown_until_ms s)
           (Z.max (disabled_until_ms s) (now + authDisableMs (self m)))) ∧
  (err_status mapped = Some 402 →
   goes_on (cooldown_until_ms s)
           (Z.max (disabled_until_ms s) (now + paymentDisableMs (self m)))) ∧
  (err_status mapped = Some 429 →
   goes_on (Z.max (cooldown_until_ms s) (now + rateLimitCooldownMs (self m)))
           (disabled_until_ms s)) ∧
  ((err_status mapped ∉ [Some 401; Some 403; Some 402; Some 429]) →
   err_retryable mapped = true →
   goes_on (Z.max (cooldown_until_ms s) (now + errorCooldownMs (self m)))
           (disabled_until_ms s)).
Proof.
  intros Hs Hd Hc Hq Hcall mapped now goes_on.
  destruct (after_record_facts world c err s m) as (Hrec & Hframe & Hquota).
  fold mapped in Hrec.
  pose proof (route_loop_rejected world req c rest lastErr m s err Hs Hd Hc Hq Hcall)
    as Hrej. cbn zeta in Hrej. fold mapped in Hrej.
  assert (Hdis : ∀ ms m6,
            m6 = snd (markFailure (name c)
                        (snd (disable world (name c) ms
                                (after_record world c err s m)))) →
            route_loop world req (c :: rest) lastErr m =
              route_loop world req rest (Some err) m6 →
            goes_on (cooldown_until_ms s) (Z.max (disabled_until_ms s) (now + ms))).
  { intros ms m6 -> Hrun.
    destruct (disable_markFailure_facts world (name c) ms _ _ Hrec)
      as (Hst & Hfr & Hqs & Hcs).
    eexists. split; [exact Hrun|]. rewrite Hcs, Hst, Hqs.
    split; [done|]. split; [done|]. split; [|exact Hquota].
    intros n Hn. by rewrite Hfr, Hframe. }
  assert (Hcool : ∀ ms m6,
            m6 = snd (markFailure (name c)
                        (snd (cooldown world (name c) ms
                                (after_record world c err s m)))) →
            route_loop world req (c :: rest) lastErr m =
              route_loop world req rest (Some err) m6 →
            goes_on (Z.max (cooldown_until_ms s) (now + ms)) (disabled_until_ms s)).
  { intros ms m6 -> Hrun.
    destruct (cooldown_markFailure_facts world (name c) ms _ _ Hrec)
      as (Hst & Hfr & Hqs & Hcs).
    eexists. split; [exact Hrun|]. rewrite Hcs, Hst, Hqs.
    split; [done|]. split; [done|]. split; [|exact Hquota].
    intros n Hn. by rewrite Hfr, Hframe. }
  assert (Hcases :
    (status_is (err_status mapped) 401 || status_is (err_status mapped) 403 = true ∧
     goes_on (cooldown_until_ms s)
       (Z.max (disabled_until_ms s) (now + authDisableMs (self m)))) ∨
    (status_is (err_status mapped) 401 || status_is (err_status mapped) 403 = false ∧
     status_is (err_status mapped) 402 = true ∧
     goes_on (cooldown_until_ms s)
       (Z.max (disabled_until_ms s) (now + paymentDisableMs (self m)))) ∨
    (status_is (err_status mapped) 401 || status_is (err_status mapped) 403 = false ∧
     status_is (err_status mapped) 402 = false ∧
     status_is (err_status mapped) 429 = true ∧
     goes_on (Z.max (cooldown_until_ms s) (now + rateLimitCooldownMs (self m)))
       (disabled_until_ms s)) ∨
    (status_is (err_status mapped) 401 || status_is (err_status mapped) 403 = false ∧
     status_is (err_status mapped) 402 = false ∧
     status_is (err_status mapped) 429 = false ∧
     (err_retryable mapped = true →
      goes_on (Z.max (cooldown_until_ms s) (now + errorCooldownMs (self m)))
        (disabled_until_ms s)))).
  { destruct Hrej as [[(Hauth & Hpay & Hrate & Hretry) _]|(m6 & Hpen & Hrun)].
    - do 3 right. do 3 (split; [done|]). intros ?. congruence.
    - inversion Hpen as [Hauth Hm6|Hauth Hpay Hm6|Hauth Hpay Hrate Hm6
                        |Hauth Hpay Hrate Hretry Hm6].
      + left. split; [done|]. by eapply Hdis.
      + right; left. do 2 (split; [done|]). by eapply Hdis.
      + do 2 right; left. do 3 (split; [done|]). by eapply Hcool.
      + do 3 right. do 3 (split; [done|]). intros _. by eapply Hcool. }
  unfold status_is in Hcases.
  split; [|split; [|split]].
  - intros Hst.
    destruct Hcases as [[_ H]|[(Hauth & _)|[(Hauth & _)|(Hauth & _)]]]; [exact H|..];
      exfalso; destruct Hst as [Hst|Hst]; rewrite Hst in Hauth; discriminate.
  - intros Hst. rewrite Hst in Hcases.
    destruct Hcases as [[Hauth _]|[(_ & _ & H)|[(_ & Hpay & _)|(_ & Hpay & _)]]];
      [discriminate | exact H | discriminate | discriminate].
  - intros Hst. rewrite Hst in Hcases.
    destruct Hcases as [[Hauth _]|[(_ & Hpay & _)|[(_ & _ & _ & H)|(_ & _ & Hrate & _)]]];
      [discriminate | discriminate | exact H | discriminate].
  - intros Hst Hretry. rewrite !not_elem_of_cons in Hst.
    destruct Hst as (H401 & H403 & H402 & H429 & _).
    destruct Hcases as [[Hauth _]|[(_ & Hpay & _)|[(_ & _ & Hrate & _)|(_ & _ & _ & H)]]];
      [| | |by apply H].
    + apply orb_true_iff in Hauth as [Hauth|Hauth];
        apply bool_decide_eq_true_1 in Hauth; done.
    + apply bool_decide_eq_true_1 in Hpay. done.
    + apply bool_decide_eq_true_1 in Hrate. done.
Qed.

(** The cheaper of two providers is rate limited at time 1000: it cools
    down for a minute, is not disabled, and the other provider answers. *)
Lemma failover_penalties_witness :
  let w := world_of 1000 (λ p, if decide (p = 1%nat) then Rejected error_429
                               else Resolved a_result) in
  let m := start_of (router_of [provider_A; provider_B]) in
  ∃ m', route_loop w a_request [provider_B; provider_A] None m =
          route_loop w a_request [provider_A] (Some error_429) m' ∧
        cooldown_until_ms <$> state (self m') !! openai = Some 61006 ∧
        disabled_until_ms <$> state (self m') !! openai = Some 0 ∧
        fst (route_loop w a_request [provider_A] (Some error_429) m')
          = LoopReturned a_result.
Proof.
  intros w m.
  destruct (failover_penalties w a_request provider_B [provider_A] None m
              fresh_state error_429) as (_ & _ & Hrate & _);
    [reflexivity | by vm_compute | by vm_compute | by vm_compute | reflexivity |].
  destruct Hrate as (m' & Hrun & _ & Hst & _); [reflexivity|].
  simpl in Hst. exists m'. rewrite Hst. split; [exact Hrun|].
  split; [reflexivity|]. split; [reflexivity|].
  rewrite <-Hrun. by vm_compute.
Defined.

(** ** The quota window slides *)

Lemma fresh_of_none windowStart arr :
  (∀ u, u ∈ arr → u < windowStart) → fresh_of windowStart arr = [].
Proof.
  intros Hold. unfold fresh_of. induction arr as [|u arr IH]; [done|].
  rewrite filter_cons_False.
  - apply IH. intros v Hv. by apply Hold, list_elem_of_further.
  - pose proof (Hold u (list_elem_of_here _ _)). lia.
Qed.

(** X6. After [checkAndConsumeLocalQuota] the list kept for the provider
    holds only timestamps within the window that ends at the clock reading;
    they are, in their order, timestamps it held before, with the reading
    last when the call was admitted.  Once every timestamp held is older than
    the window, a call is admitted whenever the cap is positive, and the list
    is the reading alone.  Neither the health states nor another provider's
    list change. *)
Theorem quota_window_slides (world : World) (nm : ProviderName) (m : Machine) :
  0 ≤ localQuotaWindowMs (self m) →
  let now := now_at world (steps m) in
  let held := default [] (localQuota (self m) !! nm) in
  let out := checkAndConsumeLocalQuota world nm m in
  ∃ kept, localQuota (self (snd out)) !! nm = Some kept ∧
          (∀ t, t ∈ kept → now - localQuotaWindowMs (self m) ≤ t ∧ t ∈ held ++ [now]) ∧
          kept `sublist_of` held ++ [now] ∧
          (fst out = true → last kept = Some now) ∧
          ((∀ u, u ∈ held → u < now - localQuotaWindowMs (self m)) →
           0 < localQuotaMax (self m) →
           fst out = true ∧ kept = [now]) ∧
          state (self (snd out)) = state (self m) ∧
          (∀ n, n ≠ nm → localQuota (self (snd out)) !! n = localQuota (self m) !! n).
Proof.
  intros Hw now held out. subst out.
  rewrite run_checkAndConsumeLocalQuota. cbn zeta. fold now held.
  assert (Hin : ∀ t, t ∈ fresh_of (now - localQuotaWindowMs (self m)) held →
                     now - localQuotaWindowMs (self m) ≤ t ∧ t ∈ held).
  { intros t Ht. by apply list_elem_of_filter in Ht. }
  case_bool_decide as Hfull; cbn [fst snd self localQuota state with_localQuota];
    eexists; (split; [by rewrite lookup_insert_eq|]).
  - split.
    { intros t Ht. destruct (Hin t Ht). split; [done|]. apply elem_of_app. by left. }
    split; [apply sublist_inserts_r, sublist_filter|].
    split; [done|].
    split; [|split; [done|intros n Hn; by rewrite lookup_insert_ne]].
    intros Hold Hpos. rewrite (fresh_of_none _ _ Hold) in Hfull. simpl in Hfull. lia.
  - split.
    { intros t [Ht| ->%list_elem_of_singleton]%elem_of_app.
      - destruct (Hin t Ht). split; [done|]. apply elem_of_app. by left.
      - split; [lia|]. apply elem_of_app. right. apply list_elem_of_here. }
    split; [apply sublist_app; [apply sublist_filter|done]|].
    split; [intros _; apply last_snoc|].
    split; [|split; [done|intros n Hn; by rewrite lookup_insert_ne]].
    intros Hold _. by rewrite (fresh_of_none _ _ Hold).
Qed.

(** Five admissions at times 1000 to 1004 fill the default quota; a call at
    time 70000 finds them all older than a minute and is admitted. *)
Lemma quota_window_slides_witness :
  let w := {| now_at := λ k, if decide (k < 5)%nat then 1000 + Z.of_nat k else 70000;
              analyze_at := λ _ _ _, Resolved a_result;
              buildAnalysisPrompt := λ data _, data;
              AI_PROVIDER_STRATEGY := None |} in
  let m5 := snd (consume_times w claude 5 (start_of (router_of [provider_A]))) in
  localQuota (self m5) !! claude = Some [1000; 1001; 1002; 1003; 1004] ∧
  fst (checkAndConsumeLocalQuota w claude m5) = true ∧
  localQuota (self (snd (checkAndConsumeLocalQuota w claude m5))) !! claude
    = Some [70000].
Proof.
  intros w m5. split; [reflexivity|].
  destruct (quota_window_slides w claude m5) as (kept & Hkept & _ & _ & _ & Hslide & _);
    [by vm_compute|].
  destruct Hslide as [Hok Heq].
  - intros u Hu. vm_compute in Hu.
    repeat (apply elem_of_cons in Hu as [->|Hu]; [by vm_compute|]).
    by apply elem_of_nil in Hu.
  - by vm_compute.
  - split; [exact Hok|]. rewrite Hkept, Heq. reflexivity.
Defined.

(** ** The router over its lifetime *)

Section Lifetime.
Context (world : World).

Lemma same_config_refl r : same_config r r.
Proof. by repeat split. Qed.

Lemma evolves_refl m : evolves m m.
Proof.
  split; [apply same_config_refl|]. split; [done|].
  intros nm s Hs. by exists s.
Qed.

Lemma evolves_trans m1 m2 m3 : evolves m1 m2 → evolves m2 m3 → evolves m1 m3.
Proof.
  intros (Hc12 & Hw12 & Hd12) (Hc23 & Hw23 & Hd23).
  split; [|split].
  - destruct Hc12 as (?&?&?&?&?&?&?), Hc23 as (?&?&?&?&?&?&?).
    repeat split; congruence.
  - auto.
  - intros nm s Hs. destruct (Hd12 nm s Hs) as (s2 & Hs2 & ?).
    destruct (Hd23 nm s2 Hs2) as (s3 & Hs3 & ?). exists s3. split; [done|lia].
Qed.

Lemma evolves_same_self m m' : self m' = self m → evolves m m'.
Proof.
  intros Heq. split; [rewrite Heq; apply same_config_refl|].
  split; [by rewrite Heq|].
  intros nm s Hs. exists s. by rewrite Heq.
Qed.

(** A provider's state replaced by one that is no worse. *)
Lemma evolves_state_update m nm s s' st cl :
  state (self m) !! nm = Some s →
  (0 ≤ consecutive_failures s → 0 ≤ consecutive_failures s') →
  (0 ≤ cooldown_until_ms s → 0 ≤ cooldown_until_ms s') →
  disabled_until_ms s ≤ disabled_until_ms s' →
  evolves m {| self := with_state (<[nm := s']> (state (self m))) (self m);
               steps := st; calls := cl |}.
Proof.
  intros Hs Hf Hc Hd. split; [by repeat split|]. split.
  - intros (Hdom & Hqdom & Hq & Hnn). cbn [self].
    split; [|split; [exact Hqdom|split; [exact Hq|]]].
    + intros n. cbn [state with_state providers]. rewrite <-Hdom.
      destruct (decide (nm = n)) as [<-|Hne].
      * rewrite lookup_insert_eq, Hs. by split.
      * by rewrite lookup_insert_ne.
    + intros n s0. cbn [state with_state].
      destruct (decide (nm = n)) as [<-|Hne].
      * rewrite lookup_insert_eq. intros [= <-].
        destruct (Hnn nm s Hs) as (? & ? & ?). repeat split; [auto|auto|lia].
      * rewrite lookup_insert_ne by done. apply Hnn.
  - intros n s0 Hs0. cbn [self state with_state].
    destruct (decide (nm = n)) as [<-|Hne].
    + rewrite lookup_insert_eq. exists s'. split; [done|]. congruence.
    + rewrite lookup_insert_ne by done. exists s0. by split.
Qed.

(** A registered provider's quota list replaced by one within the cap. *)
Lemma evolves_quota_update m nm l st cl :
  nm ∈ name <$> providers (self m) →
  (well_formed (self m) → Z.of_nat (length l) ≤ Z.max 0 (localQuotaMax (self m))) →
  evolves m {| self := with_localQuota (<[nm := l]> (localQuota (self m))) (self m);
               steps := st; calls := cl |}.
Proof.
  intros Hnm Hl. split; [by repeat split|]. split.
  - intros Hwf. pose proof (Hl Hwf). destruct Hwf as (Hdom & Hqdom & Hq & Hnn).
    cbn [self]. split; [exact Hdom|]. split; [|split; [|exact Hnn]].
    + intros n. cbn [localQuota with_localQuota providers]. rewrite <-Hqdom.
      destruct (decide (nm = n)) as [<-|Hne].
      * rewrite lookup_insert_eq. split; [|done]. intros _. by apply Hqdom.
      * by rewrite lookup_insert_ne.
    + intros n l0. cbn [localQuota with_localQuota localQuotaMax].
      destruct (decide (nm = n)) as [<-|Hne].
      * rewrite lookup_insert_eq. by intros [= <-].
      * rewrite lookup_insert_ne by done. apply Hq.
  - intros n s0 Hs0. exists s0. by split.
Qed.

Lemma cooldown_evolves nm ms m : evolves m (snd (cooldown world nm ms m)).
Proof.
  rewrite run_cooldown. destruct (state (self m) !! nm) as [s|] eqn:Hs.
  - apply (evolves_state_update m nm s); simpl; [done|done|lia|lia].
  - apply evolves_refl.
Qed.

Lemma disable_evolves nm ms m : evolves m (snd (disable world nm ms m)).
Proof.
  rewrite run_disable. destruct (state (self m) !! nm) as [s|] eqn:Hs.
  - apply (evolves_state_update m nm s); simpl; [done|done|done|lia].
  - apply evolves_refl.
Qed.

Lemma markFailure_evolves nm m : evolves m (snd (markFailure nm m)).
Proof.
  rewrite run_markFailure. destruct (state (self m) !! nm) as [s|] eqn:Hs.
  - apply (evolves_state_update m nm s); simpl; [done|lia|done|lia].
  - apply evolves_refl.
Qed.

Lemma markSuccess_evolves nm m : evolves m (snd (markSuccess nm m)).
Proof.
  rewrite run_markSuccess. destruct (state (self m) !! nm) as [s|] eqn:Hs.
  - apply (evolves_state_update m nm s); simpl; [done|lia|lia|lia].
  - apply evolves_refl.
Qed.

Lemma recordError_evolves nm err m : evolves m (snd (recordError world nm err m)).
Proof.
  rewrite run_recordError. destruct (state (self m) !! nm) as [s|] eqn:Hs.
  - apply (evolves_state_update m nm s); simpl; [done|done|done|lia].
  - apply evolves_refl.
Qed.

Lemma checkAndConsumeLocalQuota_evolves nm m :
  nm ∈ name <$> providers (self m) →
  evolves m (snd (checkAndConsumeLocalQuota world nm m)).
Proof.
  intros Hnm. rewrite run_checkAndConsumeLocalQuota. cbn zeta.
  set (fresh := fresh_of _ _).
  case_bool_decide as Hfull; cbn [snd]; apply evolves_quota_update; try done.
  - intros (_ & _ & Hq & _).
    assert (Z.of_nat (length (default [] (localQuota (self m) !! nm)))
            ≤ Z.max 0 (localQuotaMax (self m))) as Hold.
    { destruct (localQuota (self m) !! nm) as [l|] eqn:Hl; simpl; [by eapply Hq|lia]. }
    pose proof (length_filter (λ t : Z, now_at world (steps m)
                                 - localQuotaWindowMs (self m) ≤ t)
                  (default [] (localQuota (self m) !! nm))) as Hlen.
    fold (fresh_of (now_at world (steps m) - localQuotaWindowMs (self m))
            (default [] (localQuota (self m) !! nm))) in Hlen.
    fold fresh in Hlen. lia.
  - intros _. rewrite length_app. simpl. lia.
Qed.

Lemma skip_test_evolves nm m :
  evolves m (snd (or_else (isDisabled world nm) (isInCooldown world nm) m)).
Proof. apply evolves_same_self. by destruct (skip_test_state world nm m). Qed.

Lemma penalised_evolves nm mapped m m' :
  penalised world nm mapped m m' → evolves m m'.
Proof.
  destruct 1;
    (eapply evolves_trans; [|apply markFailure_evolves]);
    auto using cooldown_evolves, disable_evolves.
Qed.

Lemma evolves_providers m m' : evolves m m' → providers (self m') = providers (self m).
Proof. by intros ((? & _) & _). Qed.

Lemma loop_run_evolves req candidates lastErr m res m' :
  loop_run world req candidates lastErr m res m' →
  (∀ c, c ∈ candidates → c ∈ providers (self m)) →
  evolves m m'.
Proof.
  induction 1 as
    [ lastErr m
    | c rest lastErr m m1 res m' Hskip _ IH
    | c rest lastErr m m1 m2 res m' Hskip Hq _ IH
    | c rest lastErr m m1 m2 m3 result Hskip Hq Hcall
    | c rest lastErr m m1 m2 m3 m4 err res m' Hskip Hq Hcall Hpen _ IH
    | c rest lastErr m m1 m2 m3 err Hskip Hq Hcall Hfatal ];
    intros Hcands.
  - apply evolves_refl.
  - assert (evolves m m1) as H1.
    { pose proof (skip_test_evolves (name c) m) as H. by rewrite Hskip in H. }
    eapply evolves_trans; [exact H1|]. apply IH.
    intros c' Hc'. rewrite (evolves_providers _ _ H1).
    by apply Hcands, list_elem_of_further.
  - assert (evolves m m1) as H1.
    { pose proof (skip_test_evolves (name c) m) as H. by rewrite Hskip in H. }
    assert (evolves m1 m2) as H2.
    { pose proof (checkAndConsumeLocalQuota_evolves (name c) m1) as H.
      rewrite Hq in H. apply H. rewrite (evolves_providers _ _ H1).
      apply list_elem_of_fmap_2, Hcands, list_elem_of_here. }
    assert (evolves m (snd (cooldown world (name c) (rateLimitCooldownMs (self m2))
                              (tick m2)))) as H3.
    { eapply evolves_trans; [exact H1|]. eapply evolves_trans; [exact H2|].
      eapply evolves_trans; [|apply cooldown_evolves]. by apply evolves_same_self. }
    eapply evolves_trans; [exact H3|]. apply IH.
    intros c' Hc'. rewrite (evolves_providers _ _ H3).
    by apply Hcands, list_elem_of_further.
  - assert (evolves m m1) as H1.
    { pose proof (skip_test_evolves (name c) m) as H. by rewrite Hskip in H. }
    assert (evolves m1 m2) as H2.
    { pose proof (checkAndConsumeLocalQuota_evolves (name c) m1) as H.
      rewrite Hq in H. apply H. rewrite (evolves_providers _ _ H1).
      apply list_elem_of_fmap_2, Hcands, list_elem_of_here. }
    eapply evolves_trans; [exact H1|]. eapply evolves_trans; [exact H2|].
    eapply evolves_trans; [|apply markSuccess_evolves].
    apply evolves_same_self. rewrite run_call_provider in Hcall.
    by injection Hcall as _ <-.
  - assert (evolves m m1) as H1.
    { pose proof (skip_test_evolves (name c) m) as H. by rewrite Hskip in H. }
    assert (evolves m1 m2) as H2.
    { pose proof (checkAndConsumeLocalQuota_evolves (name c) m1) as H.
      rewrite Hq in H. apply H. rewrite (evolves_providers _ _ H1).
      apply list_elem_of_fmap_2, Hcands, list_elem_of_here. }
    assert (evolves m m4) as H4.
    { eapply evolves_trans; [exact H1|]. eapply evolves_trans; [exact H2|].
      eapply evolves_trans; [|exact (penalised_evolves _ _ _ _ Hpen)].
      eapply evolves_trans; [|apply recordError_evolves].
      apply evolves_same_self. rewrite run_call_provider in Hcall.
      by injection Hcall as _ <-. }
    eapply evolves_trans; [exact H4|]. apply IH.
    intros c' Hc'. rewrite (evolves_providers _ _ H4).
    by apply Hcands, list_elem_of_further.
  - assert (evolves m m1) as H1.
    { pose proof (skip_test_evolves (name c) m) as H. by rewrite Hskip in H. }
    assert (evolves m1 m2) as H2.
    { pose proof (checkAndConsumeLocalQuota_evolves (name c) m1) as H.
      rewrite Hq in H. apply H. rewrite (evolves_providers _ _ H1).
      apply list_elem_of_fmap_2, Hcands, list_elem_of_here. }
    eapply evolves_trans; [exact H1|]. eapply evolves_trans; [exact H2|].
    eapply evolves_trans; [|apply recordError_evolves].
    apply evolves_same_self. rewrite run_call_provider in Hcall.
    by injection Hcall as _ <-.
Qed.

Lemma analyzeData_evolves req m : evolves m (snd (analyzeData world req m)).
Proof.
  rewrite run_analyzeData. cbn zeta. cbn [snd].
  eapply loop_run_evolves; [apply route_loop_runs|].
  intros c Hc. by rewrite <-rankProviders_perm.
Qed.


End Lifetime.






(** ** Ranking, continued *)

Section SortExt.
Local Open Scope Qc_scope.
Context {A : Type} (compare1 compare2 : A → A → Qc).



End SortExt.



(** ** What the services' errors do to the failover *)

Lemma fatal_by_status status retryable p msg :
  fatal (new_AIProviderError p msg status (Some retryable)) ↔
  retryable = false ∧ status ∉ [Some 401; Some 403; Some 402; Some 429].
Proof.
  unfold fatal, status_is. simpl.
  rewrite orb_false_iff, !bool_decide_eq_false, !not_elem_of_cons.
  split.
  - intros ((? & ?) & ? & ? & ?). repeat split; try done. apply not_elem_of_nil.
  - intros (? & ? & ? & ? & ? & _). by repeat split.
Qed.

(** X10. An error a provider service builds from a failed HTTP request
    reaches the router as an [AIProviderError] and is routed by its status
    alone, the message playing no part.  It keeps the response status.  It
    stops the failover exactly when the request did not time out and the
    response has a status below 500 other than 401, 403, 402 and 429 (for
    OpenAI and DeepSeek also other than 0): a 400 or a 404 from one provider
    ends the request without the next provider being tried, while a timeout, a
    missing response and a 5xx fail over.  The error a service throws when its
    API key is not configured always stops the failover. *)
Theorem service_failures_routed (nm : ProviderName) (f : AxiosFailure) :
  let routed := λ e, toProviderError nm (ThrownProviderError e) in
  err_status (routed (claude_failure f)) = response_status f ∧
  (∀ p label, err_status (routed (chat_failure p label f)) = response_status f) ∧
  (fatal (routed (claude_failure f)) ↔
   is_timeout f = false ∧
   ∃ s, response_status f = Some s ∧ s < 500 ∧ s ∉ [401; 403; 402; 429]) ∧
  (∀ p label,
     fatal (routed (chat_failure p label f)) ↔
     is_timeout f = false ∧
     ∃ s, response_status f = Some s ∧ s ≠ 0 ∧ s < 500 ∧ s ∉ [401; 403; 402; 429]) ∧
  (∀ p variable, fatal (routed (missing_key p variable))).
Proof.
  intros routed. subst routed. cbn beta. cbn [toProviderError].
  assert (Hmem : ∀ s : Z, Some s ∉ [Some 401; Some 403; Some 402; Some 429] ↔
                          s ∉ [401; 403; 402; 429]).
  { intros s. rewrite !not_elem_of_cons. split.
    - intros (? & ? & ? & ? & _). repeat split; try congruence. apply not_elem_of_nil.
    - intros (? & ? & ? & ? & _). repeat split; try congruence. apply not_elem_of_nil. }
  split; [|split; [|split; [|split]]].
  - unfold claude_failure. by destruct (is_timeout f).
  - intros p label. unfold chat_failure. by destruct (is_timeout f).
  - unfold claude_failure. destruct (is_timeout f).
    { rewrite fatal_by_status. split; [by intros [? _]|by intros [? _]]. }
    rewrite fatal_by_status. destruct (response_status f) as [s|].
    + rewrite Hmem. split.
      * intros [Hretry Hs]. split; [done|]. exists s. split; [done|].
        split; [|done].
        rewrite !not_elem_of_cons in Hs. destruct Hs as (H401 & H403 & _ & H429 & _).
        unfold status_is in Hretry.
        rewrite (bool_decide_eq_false_2 (Some s = Some 401)) in Hretry by congruence.
        rewrite (bool_decide_eq_false_2 (Some s = Some 403)) in Hretry by congruence.
        simpl in Hretry. apply orb_false_iff in Hretry as [_ H500].
        apply bool_decide_eq_false in H500. lia.
      * intros [_ (s' & [= <-] & Hlt & Hs)]. split; [|done].
        rewrite !not_elem_of_cons in Hs. destruct Hs as (H401 & H403 & _ & H429 & _).
        unfold status_is.
        rewrite (bool_decide_eq_false_2 (Some s = Some 401)) by congruence.
        rewrite (bool_decide_eq_false_2 (Some s = Some 403)) by congruence.
        simpl. apply orb_false_iff.
        split; apply bool_decide_eq_false; [done|lia].
    + split; [by intros [? _]|by intros [_ (s' & ? & _)]].
  - intros p label. unfold chat_failure. destruct (is_timeout f).
    { rewrite fatal_by_status. split; [by intros [? _]|by intros [? _]]. }
    rewrite fatal_by_status. destruct (response_status f) as [s|].
    + rewrite Hmem. split.
      * intros [Hretry Hs]. split; [done|]. exists s. split; [done|].
        case_bool_decide as Hzero; [done|].
        apply orb_false_iff in Hretry as [_ H500].
        apply bool_decide_eq_false in H500. repeat split; [done|lia|done].
      * intros [_ (s' & [= <-] & Hzero & Hlt & Hs)]. split; [|done].
        rewrite bool_decide_eq_false_2 by done.
        rewrite !not_elem_of_cons in Hs. destruct Hs as (_ & _ & _ & H429 & _).
        apply orb_false_iff. split; apply bool_decide_eq_false; [done|lia].
    + split; [by intros [? _]|by intros [_ (s' & ? & _)]].
  - intros p variable. unfold missing_key. rewrite fatal_by_status.
    split; [done|]. rewrite !not_elem_of_cons. repeat split; try done.
    apply not_elem_of_nil.
Qed.

(** A 404 from Claude stops the failover; a 503 and a timeout do not. *)
Lemma service_failures_routed_witness :
  let answered := λ s, {| code := Some "ERR_BAD_REQUEST"%string;
                          response_status := Some s;
                          data_error_message := Some "model: not found"%string;
                          data_message := None;
                          axios_message := "Request failed" |} in
  let timed_out := {| code := Some "ECONNABORTED"%string;
                      response_status := None;
                      data_error_message := None; data_message := None;
                      axios_message := "timeout of 30000ms exceeded" |} in
  fatal (toProviderError claude (ThrownProviderError (claude_failure (answered 404)))) ∧
  ¬ fatal (toProviderError claude (ThrownProviderError (claude_failure (answered 503)))) ∧
  ¬ fatal (toProviderError claude (ThrownProviderError (claude_failure timed_out))) ∧
  err_message (claude_failure (answered 404)) = "Claude error: model: not found"%string.
Proof.
  intros answered timed_out.
  destruct (service_failures_routed claude (answered 404)) as (_ & _ & H404 & _).
  destruct (service_failures_routed claude (answered 503)) as (_ & _ & H503 & _).
  destruct (service_failures_routed claude timed_out) as (_ & _ & Hto & _).
  split; [|split; [|split]].
  - apply H404. split; [reflexivity|]. exists 404. split; [reflexivity|].
    split; [lia|]. rewrite !not_elem_of_cons. repeat split; try lia.
    apply not_elem_of_nil.
  - intros Hf. apply H503 in Hf as [_ (s & [= <-] & Hlt & _)]. lia.
  - intros Hf. apply Hto in Hf as [Hf _]. discriminate.
  - reflexivity.
Defined.

(** ** One provider under its quota *)

Section SingleProvider.
Context (world : World) (req : Request).

(** The loop on an eligible, admitted candidate whose call resolves. *)
Lemma route_loop_resolved c rest lastErr m s result :
  state (self m) !! name c = Some s →
  disabled_until_ms s ≤ now_at world (steps m) →
  cooldown_until_ms s ≤ now_at world (1 + steps m) →
  Z.of_nat (length (fresh_of
              (now_at world (2 + steps m) - localQuotaWindowMs (self m))
              (default [] (localQuota (self m) !! name c))))
    < localQuotaMax (self m) →
  analyze_at world (provider c) req (4 + steps m) = Resolved result →
  ∃ m', route_loop world req (c :: rest) lastErr m = (LoopReturned result, m') ∧
        state (self m') !! name c =
          Some {| cooldown_until_ms := 0; consecutive_failures := 0;
                  disabled_until_ms := disabled_until_ms s;
                  last_error := last_error s |} ∧
        localQuota (self m') !! name c =
          Some (fresh_of (now_at world (2 + steps m) - localQuotaWindowMs (self m))
                  (default [] (localQuota (self m) !! name c))
                ++ [now_at world (2 + steps m)]) ∧
        calls m' = calls m ++ [ {| callee := c; outcome := Resolved result |} ].
Proof.
  intros Hs Hd Hc Hq Hcall. cbn [route_loop].
  rewrite bind_run, (run_skip_test world (name c) s m Hs).
  rewrite !bool_decide_eq_false_2 by (simpl in *; lia). cbn [fst snd].
  rewrite bind_run, run_checkAndConsumeLocalQuota. cbn zeta.
  cbn [tick self steps calls].
  rewrite bool_decide_eq_false_2 by (simpl in *; lia). cbn [fst snd negb].
  rewrite bind_run, run_getLocalQuotaState.
  rewrite bind_run, run_call_provider. cbn [fst snd tick self steps calls].
  simpl in Hcall. rewrite Hcall.
  rewrite bind_run, run_markSuccess. cbn [self state with_localQuota with_state].
  rewrite Hs. cbn [fst snd]. unfold ret.
  eexists. split; [reflexivity|]. cbn [self state with_state calls localQuota].
  split; [by rewrite lookup_insert_eq|]. split; [|done].
  simpl. by rewrite lookup_insert_eq.
Qed.

Context (c : RoutedProvider) (result : AnalysisResult).
Hypothesis answers : ∀ k, analyze_at world (provider c) req k = Resolved result.
Hypothesis clock_nonneg : ∀ k, 0 ≤ now_at world k.

(** One request to the single provider [c], by whether its quota list has
    room; every timestamp held is a reading of a clock that stays within one
    window. *)
Lemma analyzeData_single m s l :
  (∀ i j, now_at world i - localQuotaWindowMs (self m) ≤ now_at world j) →
  providers (self m) = [c] →
  state (self m) !! name c = Some s →
  disabled_until_ms s ≤ 0 →
  (Z.of_nat (length l) < localQuotaMax (self m) → cooldown_until_ms s ≤ 0) →
  localQuota (self m) !! name c = Some l →
  (∀ u, u ∈ l → ∃ k, u = now_at world k) →
  ∃ m' s' l',
    analyzeData world req m =
      (if bool_decide (Z.of_nat (length l) < localQuotaMax (self m))
       then Returned result else ThrewAllFailed, m') ∧
    state (self m') !! name c = Some s' ∧
    disabled_until_ms s' ≤ 0 ∧
    (Z.of_nat (length l') < localQuotaMax (self m) → cooldown_until_ms s' ≤ 0) ∧
    localQuota (self m') !! name c = Some l' ∧
    (∀ u, u ∈ l' → ∃ k, u = now_at world k) ∧
    length l' = (if bool_decide (Z.of_nat (length l) < localQuotaMax (self m))
                 then S (length l) else length l) ∧
    length (calls m') =
      (if bool_decide (Z.of_nat (length l) < localQuotaMax (self m))
       then S (length (calls m)) else length (calls m)).
Proof.
  intros Hwin Hps Hs Hdis Hcool Hl Hread.
  assert (Hfresh : ∀ k, fresh_of (now_at world k - localQuotaWindowMs (self m)) l = l).
  { intros k. apply fresh_of_all. intros u Hu.
    destruct (Hread u Hu) as (j & ->). apply Hwin. }
  rewrite run_analyzeData. cbn zeta.
  match goal with |- context [route_loop world req ?cs None m] =>
    assert (cs = [c]) as ->
      by (apply Permutation_singleton_r; rewrite <-Hps; apply rankProviders_perm)
  end.
  pose proof (clock_nonneg (steps m)). pose proof (clock_nonneg (1 + steps m)).
  case_bool_decide as Hroom.
  - destruct (route_loop_resolved c [] None m s result Hs)
      as (m' & Hrun & Hst & Hq & Hcalls); [lia|specialize (Hcool Hroom); lia| |done|].
    { rewrite Hl. simpl. by rewrite Hfresh. }
    rewrite Hl in Hq. simpl in Hq. rewrite Hfresh in Hq.
    eexists m', _, _. rewrite Hrun. split; [done|]. split; [exact Hst|].
    simpl. split; [done|]. split; [done|]. split; [exact Hq|].
    split.
    { intros u [Hu| ->%list_elem_of_singleton]%elem_of_app; [by apply Hread|].
      by eexists. }
    rewrite Hcalls, !length_app. simpl. split; lia.
  - destruct (decide (now_at world (S (steps m)) < cooldown_until_ms s)) as [Hcd|Hcd].
    + destruct (route_loop_skip world req c [] None m s Hs)
        as (m' & Hrun & Hself & Hcalls & _); [by right|].
      exists m', s, l. rewrite Hrun. cbn [route_loop]. unfold ret. cbn [fst snd].
      rewrite Hself, Hcalls. by repeat split.
    + destruct (route_loop_quota_refused world req c [] None m s Hs)
        as (m' & Hrun & Hcalls & Hst & _ & Hq); [lia|simpl; lia| |].
      { rewrite Hl. simpl. rewrite Hfresh. lia. }
      rewrite Hl in Hq. simpl in Hq. rewrite Hfresh in Hq.
      eexists m', _, l. rewrite Hrun. cbn [route_loop]. unfold ret. cbn [fst snd].
      split; [done|]. split; [exact Hst|]. simpl.
      split; [done|]. split; [intros ?; lia|]. by rewrite Hcalls.
Qed.

Lemma serve_single n : ∀ m s l,
  (∀ i j, now_at world i - localQuotaWindowMs (self m) ≤ now_at world j) →
  providers (self m) = [c] →
  state (self m) !! name c = Some s →
  disabled_until_ms s ≤ 0 →
  (Z.of_nat (length l) < localQuotaMax (self m) → cooldown_until_ms s ≤ 0) →
  localQuota (self m) !! name c = Some l →
  (∀ u, u ∈ l → ∃ k, u = now_at world k) →
  let room := Z.to_nat (localQuotaMax (self m) - Z.of_nat (length l)) in
  fst (serve world (replicate n req) m) =
    replicate (n `min` room) (Returned result) ++ replicate (n - room) ThrewAllFailed ∧
  length (calls (snd (serve world (replicate n req) m))) =
    (length (calls m) + n `min` room)%nat.
Proof.
  induction n as [|n IH]; intros m s l Hwin Hps Hs Hdis Hcool Hl Hread room.
  { simpl. split; [done|lia]. }
  cbn [replicate serve]. rewrite !bind_run. unfold ret. cbn [fst snd].
  destruct (analyzeData_single m s l Hwin Hps Hs Hdis Hcool Hl Hread)
    as (m' & s' & l' & Hrun & Hs' & Hdis' & Hcool' & Hl' & Hread' & Hlen & Hcalls).
  pose proof (analyzeData_evolves world req m) as ((Hps' & _ & _ & _ & _ & Hmax & Hw) & _).
  rewrite Hrun in Hps', Hmax, Hw |- *. cbn [fst snd] in *.
  destruct (IH m' s' l') as [Hres Hcnt]; try done.
  - by rewrite Hw.
  - congruence.
  - by rewrite Hmax.
  - rewrite Hres, Hcnt, Hmax. subst room.
    case_bool_decide as Hroom.
    + rewrite Hlen, Hcalls.
      replace (Z.to_nat (localQuotaMax (self m) - Z.of_nat (length l)))
        with (S (Z.to_nat (localQuotaMax (self m) - Z.of_nat (S (length l))))) by lia.
      rewrite <-Nat.succ_min_distr. simpl. split; [done|lia].
    + rewrite Hlen, Hcalls.
      replace (Z.to_nat (localQuotaMax (self m) - Z.of_nat (length l)))
        with 0%nat by lia.
      rewrite !Nat.min_0_r, !Nat.sub_0_r. simpl. split; [done|lia].
Qed.

End SingleProvider.

(** X11. A new router has one provider, which answers every call, and the
    clock readings are not negative and all within one quota window of each
    other.  Of [n] identical requests served one after the other, the first
    [localQuotaMax] return the provider's result and every later one ends
    with the "All AI providers failed" error without reaching the provider,
    whether the cooldown set by the first refusal is still running or not:
    the provider is called [min n localQuotaMax] times in all. *)
Theorem quota_over_requests (cfg : Settings) (c : RoutedProvider) (r : Router)
    (world : World) (req : Request) (result : AnalysisResult) (n : nat) :
  new_ProviderRouter cfg [c] = Some r →
  (∀ k, analyze_at world (provider c) req k = Resolved result) →
  (∀ k, 0 ≤ now_at world k) →
  (∀ i j, now_at world i - AI_LOCAL_QUOTA_WINDOW_MS cfg ≤ now_at world j) →
  let cap := Z.to_nat (AI_LOCAL_QUOTA_MAX cfg) in
  fst (serve world (replicate n req) (start_of r)) =
    replicate (n `min` cap) (Returned result) ++ replicate (n - cap) ThrewAllFailed ∧
  length (calls (snd (serve world (replicate n req) (start_of r)))) = (n `min` cap)%nat.
Proof.
  intros Hnew Hans Hclock Hwin cap.
  assert (providers r = [c] ∧ localQuotaMax r = AI_LOCAL_QUOTA_MAX cfg ∧
          localQuotaWindowMs r = AI_LOCAL_QUOTA_WINDOW_MS cfg ∧
          state r !! name c = Some fresh_state ∧ localQuota r !! name c = Some [])
    as (Hps & Hmax & Hw & Hs & Hq).
  { revert Hnew. unfold new_ProviderRouter. simpl. intros [= <-]. simpl.
    by rewrite !lookup_insert_eq. }
  destruct (serve_single world req c result Hans Hclock n (start_of r) fresh_state [])
    as [Hres Hcnt]; simpl; try done.
  - by rewrite Hw.
  - intros u Hu. by apply elem_of_nil in Hu.
  - simpl in Hres, Hcnt. rewrite Hmax, Z.sub_0_r in Hres, Hcnt. by split.
Qed.

(** Eight requests within eight seconds under the default cap of five a
    minute. *)
Lemma quota_over_requests_witness :
  let w := {| now_at := λ k, 1000 + 200 * Z.of_nat (k `min` 40);
              analyze_at := λ _ _ _, Resolved a_result;
              buildAnalysisPrompt := λ data _, data;
              AI_PROVIDER_STRATEGY := None |} in
  fst (serve w (replicate 8 a_request) (start_of (router_of [provider_A]))) =
    replicate 5 (Returned a_result) ++ replicate 3 ThrewAllFailed ∧
  length (calls (snd (serve w (replicate 8 a_request)
                        (start_of (router_of [provider_A]))))) = 5%nat.
Proof.
  intros w.
  apply (quota_over_requests default_settings provider_A
           (router_of [provider_A]) w a_request a_result 8).
  - reflexivity.
  - done.
  - intros k. simpl. lia.
  - intros i j. simpl. lia.
Defined.
